(** * avclass update: relation classification and fixed-point update engine

    A shallow embedding of [src/avclass/update.py] (class [Update]) and a
    verification of the properties its specification states about it.

    Conventions of the embedding:
    - a Python [str] is the [string] of the bytes of its UTF-8 encoding: the
      characters the module looks for (the tab, [#], [:]) are single bytes
      that occur in the encoding of no other character, and the byte-wise
      order of the encodings is the code-point order of [<] on [str];
    - a [dict] is a [gmap], a [set] a [gset]; the iteration / [pop] order of
      a set, which Python leaves unspecified, is an oracle of the runtime
      that returns a permutation of the set's elements;
    - a method that mutates [self] is a function in a state-and-exception
      monad over the [Update] record; a raised exception is a [Raise] result;
    - the builtins [int] and [float] are parameters of the runtime: they
      return [None] where Python raises [ValueError]; the value of a finite
      binary64 number is the rational it denotes, so comparisons are exact;
    - the module's global namespace is part of the runtime: [process_relation]
      reads a global called [args], and the module itself never binds it. *)

From Stdlib Require Import ZArith QArith String Ascii List Lia.
From stdpp Require Import base option list gmap sets strings sorting.

Local Open Scope string_scope.
Local Open Scope list_scope.
Local Open Scope Z_scope.

(** ** Python string operations used by the module *)

Module Py.

Definition tab : ascii := Ascii.ascii_of_nat 9.
Definition colon : ascii := ":"%char.
Definition hash : ascii := "#"%char.

(** The white space of [str.isspace] and [str.strip()]: the characters
    U+0009 to U+000D, U+001C to U+0020, U+0085, U+00A0, U+1680, U+2000 to
    U+200A, U+2028, U+2029, U+202F, U+205F and U+3000. [isspace] is the test
    of those encoded in one byte. *)
Definition isspace (c : ascii) : bool :=
  let n := Ascii.nat_of_ascii c in
  ((9 <=? n)%nat && (n <=? 13)%nat) || ((28 <=? n)%nat && (n <=? 32)%nat).

(** The white space encoded in two bytes: U+0085 is [C2 85], U+00A0 is
    [C2 A0]. *)
Definition isspace2 (a b : ascii) : bool :=
  (Ascii.nat_of_ascii a =? 194)%nat
  && ((Ascii.nat_of_ascii b =? 133)%nat || (Ascii.nat_of_ascii b =? 160)%nat).

(** The white space encoded in three bytes: U+1680 is [E1 9A 80], U+2000 to
    U+200A are [E2 80 80] to [E2 80 8A], U+2028, U+2029 and U+202F are
    [E2 80 A8], [E2 80 A9] and [E2 80 AF], U+205F is [E2 81 9F] and U+3000 is
    [E3 80 80]. *)
Definition isspace3 (a b c : ascii) : bool :=
  let x := Ascii.nat_of_ascii a in
  let y := Ascii.nat_of_ascii b in
  let z := Ascii.nat_of_ascii c in
  ((x =? 225) && (y =? 154) && (z =? 128))%nat
  || ((x =? 226) && (y =? 128)
      && (((128 <=? z) && (z <=? 138)) || (z =? 168) || (z =? 169) || (z =? 175)))%nat
  || ((x =? 226) && (y =? 129) && (z =? 159))%nat
  || ((x =? 227) && (y =? 128) && (z =? 128))%nat.

(** Removes the white space a string starts with, given the tests of the
    characters of one, two and three bytes in the order the bytes are met. *)
Fixpoint lstrip_by (p1 : ascii → bool) (p2 : ascii → ascii → bool)
    (p3 : ascii → ascii → ascii → bool) (s : string) : string :=
  match s with
  | EmptyString => EmptyString
  | String a s1 =>
      if p1 a then lstrip_by p1 p2 p3 s1
      else
        match s1 with
        | EmptyString => s
        | String b s2 =>
            if p2 a b then lstrip_by p1 p2 p3 s2
            else
              match s2 with
              | EmptyString => s
              | String c s3 => if p3 a b c then lstrip_by p1 p2 p3 s3 else s
              end
        end
  end.

(** [s.lstrip()] *)
Definition lstrip (s : string) : string :=
  lstrip_by isspace isspace2 isspace3 s.

(** [s.rstrip()]: from the end, the bytes of a character are met last
    byte first. *)
Definition rstrip (s : string) : string :=
  String.rev
    (lstrip_by isspace (λ b a, isspace2 a b) (λ c b a, isspace3 a b c)
       (String.rev s)).

(** [s.strip()] *)
Definition strip (s : string) : string := rstrip (lstrip s).

(** [s.startswith(c)] for a one-character [c]. *)
Definition startswith (c : ascii) (s : string) : bool :=
  match s with
  | EmptyString => false
  | String a _ => Ascii.eqb a c
  end.

(** [s.split(c)] for a one-character separator: empty fields are kept and
    the result is never empty. *)
Fixpoint split (c : ascii) (s : string) : list string :=
  match s with
  | EmptyString => [EmptyString]
  | String a s' =>
      if Ascii.eqb a c then EmptyString :: split c s'
      else match split c s' with
           | [] => [String a EmptyString]
           | w :: ws => String a w :: ws
           end
  end.

Fixpoint rfind_from (c : ascii) (s : string) (i acc : Z) : Z :=
  match s with
  | EmptyString => acc
  | String a s' => rfind_from c s' (i + 1) (if Ascii.eqb a c then i else acc)
  end.

(** [s.rfind(c)]: the highest index of [c] in [s], or [-1]. *)
Definition rfind (c : ascii) (s : string) : Z := rfind_from c s 0 (-1).

(** [s[0:k]], with Python's treatment of a negative or too large bound. *)
Definition slice_to (s : string) (k : Z) : string :=
  let len := Z.of_nat (String.length s) in
  let k' := if k <? 0 then Z.max (len + k) 0 else Z.min k len in
  String.substring 0 (Z.to_nat k') s.

(** [sorted(l)] on a list of strings: ascending in code-point order. *)
Definition sorted (l : list string) : list string := merge_sort String.le l.

Inductive exn := NameError | ValueError | KeyError | TypeError | OSError.

Inductive result (A : Type) :=
| Ok (a : A)
| Raise (e : exn).
Global Arguments Ok {A} a.
Global Arguments Raise {A} e.

End Py.
Export Py.

(** ** The relation record *)

(** [Relation = namedtuple('Relation', [...])]; every field is the text read
    from the file. *)
Record Relation := {
  t1 : string;
  t2 : string;
  t1_num : string;
  t2_num : string;
  nalias_num : string;
  talias_num : string;
  tinv_alias_num : string
}.

Definition Relation_fields (r : Relation) : list string :=
  [t1 r; t2 r; t1_num r; t2_num r; nalias_num r; talias_num r; tinv_alias_num r].

Definition Relation_of_fields (l : list string) : option Relation :=
  match l with
  | [a; b; c; d; e; f; g] =>
      Some {| t1 := a; t2 := b; t1_num := c; t2_num := d; nalias_num := e;
              talias_num := f; tinv_alias_num := g |}
  | _ => None
  end.

#[global] Instance Relation_eq_dec : EqDecision Relation.
Proof. solve_decision. Defined.

#[global] Instance Relation_countable : Countable Relation.
Proof.
  apply (inj_countable Relation_fields Relation_of_fields).
  intros []; reflexivity.
Defined.

(** ** The knowledge base stores ([avclass.common])

    [update.py] imports [Taxonomy], [Translation] and [Expansion] from
    [avclass.common], and uses them only through the query and mutation
    interface listed in the specification. *)

Module Taxonomy.

(** Modelled from the spec: the class [Taxonomy] of [avclass.common]. A
    taxonomy entry is a path-qualified label, [CATEGORY:name] or nested
    ([CATEGORY:a:b:name]), that may be flagged as a platform tag; the
    taxonomy maps the name of each known tag to its entry, so a tag appears
    under exactly one category at a time. *)
Record Tag := {
  path : string;
  platform : bool
}.

Definition components (p : string) : list string := Py.split Py.colon p.

(** The tag a path names: its last component. *)
Definition name_of (p : string) : string := List.last (components p) "".

(** Modelled from the spec: the category of a path is its first component;
    a label with no category part is unclassified. *)
Definition category_of (p : string) : string :=
  match components p with
  | c :: _ :: _ => c
  | _ => "UNK"
  end.

(** The components strictly between the category and the name: the
    ancestors of the tag. *)
Definition prefix_l (p : string) : list string :=
  List.removelast (List.tl (components p)).

Definition is_tag (tax : gmap string Tag) (t : string) : bool :=
  bool_decide (is_Some (tax !! t)).

(** Modelled from the spec: [get_category(tag) -> Category]; a tag the
    taxonomy does not know is of category [UNK]. *)
Definition get_category (tax : gmap string Tag) (t : string) : string :=
  match tax !! t with
  | Some e => category_of (path e)
  | None => "UNK"
  end.

(** Modelled from the spec: [get_path(tag) -> string]. *)
Definition get_path (tax : gmap string Tag) (t : string) : string :=
  match tax !! t with
  | Some e => path e
  | None => "UNK:" +:+ t
  end.

(** Modelled from the spec: [get_info(tag) -> (path, Category)]. *)
Definition get_info (tax : gmap string Tag) (t : string) : string * string :=
  (get_path tax t, get_category tax t).

Definition ancestors (tax : gmap string Tag) (t : string) : list string :=
  match tax !! t with
  | Some e => prefix_l (path e)
  | None => []
  end.

(** Modelled from the spec: [overlaps(tag_a, tag_b) -> bool], true when the
    two tags are taxonomy-related: one is an ancestor of the other. *)
Definition overlaps (tax : gmap string Tag) (a b : string) : bool :=
  bool_decide (a ∈ ancestors tax b) || bool_decide (b ∈ ancestors tax a).

(** Modelled from the spec: [platform_tags() -> set of tag], the names of
    the entries flagged as platform tags. *)
Definition platform_tags (tax : gmap string Tag) : gset string :=
  dom (filter (λ kv, platform (snd kv) = true) tax).

(** Modelled from the spec: [add_tag(path)]. The entry is filed under the
    name the path ends in; a name the taxonomy already knows keeps its
    entry, so that it stays under one category. *)
Definition add_tag (tax : gmap string Tag) (p : string) : gmap string Tag :=
  match tax !! name_of p with
  | Some _ => tax
  | None => <[name_of p := {| path := p; platform := false |}]> tax
  end.

(** Modelled from the spec: [remove_tag(tag)]. *)
Definition remove_tag (tax : gmap string Tag) (t : string) : gmap string Tag :=
  delete t tax.

Fixpoint remove_overlaps_go (tax : gmap string Tag) (l out : list string)
  : list string :=
  match l with
  | [] => out
  | x :: l' =>
      if existsb (λ e, String.eqb x e || overlaps tax x e) out
      then remove_overlaps_go tax l' out
      else remove_overlaps_go tax l' (out ++ [x])
  end.

(** Modelled from the spec: [remove_overlaps(tag_list) -> filtered list].
    A tag is kept unless it repeats or overlaps a tag kept before it, so
    that no tag of the result is an ancestor or descendant of another. *)
Definition remove_overlaps (tax : gmap string Tag) (l : list string)
  : list string :=
  remove_overlaps_go tax l [].

End Taxonomy.

Module Rules.

(** Modelled from the spec: the rule tables of [avclass.common]
    ([Translation] and [Expansion] offer the same interface). A table maps
    a source tag to the ordered list of its destinations. *)

(** [get_dst(tag)]: the destinations of [tag], empty if it has no rule. *)
Definition get_dst (m : gmap string (list string)) (src : string)
  : list string :=
  default [] (m !! src).

(** [add_rule(source, destinations, overwrite)]: with [overwrite] the
    destinations replace any prior rule of the source, otherwise they are
    added to it. *)
Definition add_rule (m : gmap string (list string)) (src : string)
    (dst_l : list string) (overwrite : bool) : gmap string (list string) :=
  if overwrite then <[src := dst_l]> m
  else <[src := get_dst m src ++ dst_l]> m.

End Rules.

Module Translation := Rules.
Module Expansion := Rules.

(** ** The runtime: builtins, set order, module globals, log *)

(** The command-line namespace; [process_relation] reads its [t]. *)
Record Args := { args_t : Q }.

(** The records the module's logger receives. *)
Inductive LogRecord :=
| LogProcessing (p1 p2 : string)
    (* debug: "Processing %s\t%s" *)
| LogDifferentCategories (p1 p2 : string)
    (* warning: "Equivalent rule with different categories: %s\t%s" *)
| LogPass (num_iter : nat)
    (* debug: "[-] %03d Processing relations" *)
| LogFindingExpansions
    (* debug: "[-] Finding expansions" *)
| LogIgnoringAlias (p1 : string).
    (* debug: "Ignoring relation for alias %s" *)

Inductive LogLevel := DEBUG | WARNING.

Definition level (r : LogRecord) : LogLevel :=
  match r with
  | LogDifferentCategories _ _ => WARNING
  | _ => DEBUG
  end.

Record Runtime := {
  (** [int(s)]; [None] is [ValueError] *)
  py_int : string → option Z;
  (** [float(s)]; [None] is [ValueError] *)
  py_float : string → option Q;
  (** the order in which a set of relations is iterated or popped *)
  set_iter : gset Relation → list Relation;
  set_iter_perm : ∀ X, set_iter X ≡ₚ elements X;
  (** the binding of the global name [args] in the module's namespace *)
  g_args : option Args
}.

(** ** The [Update] object *)

Record Update := {
  _out_taxonomy : gmap string Taxonomy.Tag;
  _out_translation : gmap string (list string);
  _out_expansion : gmap string (list string);
  _n : Z;
  _t : Q;
  blist : gset string;
  src_map : gmap string string;
  rel_set : gset Relation;
  (** what the object has logged so far, oldest first *)
  logged : list LogRecord
}.

Definition set_taxonomy (x : gmap string Taxonomy.Tag) (u : Update) : Update :=
  {| _out_taxonomy := x; _out_translation := _out_translation u;
     _out_expansion := _out_expansion u; _n := _n u; _t := _t u;
     blist := blist u; src_map := src_map u; rel_set := rel_set u;
     logged := logged u |}.

Definition set_translation (x : gmap string (list string)) (u : Update) : Update :=
  {| _out_taxonomy := _out_taxonomy u; _out_translation := x;
     _out_expansion := _out_expansion u; _n := _n u; _t := _t u;
     blist := blist u; src_map := src_map u; rel_set := rel_set u;
     logged := logged u |}.

Definition set_expansion (x : gmap string (list string)) (u : Update) : Update :=
  {| _out_taxonomy := _out_taxonomy u; _out_translation := _out_translation u;
     _out_expansion := x; _n := _n u; _t := _t u;
     blist := blist u; src_map := src_map u; rel_set := rel_set u;
     logged := logged u |}.

Definition set_src_map (x : gmap string string) (u : Update) : Update :=
  {| _out_taxonomy := _out_taxonomy u; _out_translation := _out_translation u;
     _out_expansion := _out_expansion u; _n := _n u; _t := _t u;
     blist := blist u; src_map := x; rel_set := rel_set u;
     logged := logged u |}.

Definition set_rel_set (x : gset Relation) (u : Update) : Update :=
  {| _out_taxonomy := _out_taxonomy u; _out_translation := _out_translation u;
     _out_expansion := _out_expansion u; _n := _n u; _t := _t u;
     blist := blist u; src_map := src_map u; rel_set := x;
     logged := logged u |}.

Definition emit (r : LogRecord) (u : Update) : Update :=
  {| _out_taxonomy := _out_taxonomy u; _out_translation := _out_translation u;
     _out_expansion := _out_expansion u; _n := _n u; _t := _t u;
     blist := blist u; src_map := src_map u; rel_set := rel_set u;
     logged := logged u ++ [r] |}.

(** The three stores of the knowledge base. *)
Definition stores (u : Update)
  : gmap string Taxonomy.Tag * gmap string (list string) * gmap string (list string) :=
  (_out_taxonomy u, _out_translation u, _out_expansion u).

(** ** Methods of [Update] *)

Section Methods.

Variable rt : Runtime.

(** [is_weak_rel]: [int(rel.nalias_num) < self._n or
    float(rel.talias_num) < self._t]; the second conversion is evaluated
    only when the first comparison is false. *)
Definition is_weak_rel (u : Update) (rel : Relation) : result bool :=
  match py_int rt (nalias_num rel) with
  | None => Raise ValueError
  | Some j =>
      if j <? _n u then Ok true
      else match py_float rt (talias_num rel) with
           | None => Raise ValueError
           | Some r => Ok (negb (Qle_bool (_t u) r))
           end
  end.

(** [is_blacklisted_rel]: [rel.t1 in self.blist or rel.t2 in self.blist]. *)
Definition is_blacklisted_rel (u : Update) (rel : Relation) : bool :=
  bool_decide (t1 rel ∈ blist u) || bool_decide (t2 rel ∈ blist u).

(** [is_known_rel] *)
Definition is_known_rel (u : Update) (rel : Relation) : bool :=
  if Taxonomy.overlaps (_out_taxonomy u) (t1 rel) (t2 rel) then true
  else
    let t1_dst := Expansion.get_dst (_out_expansion u) (t1 rel) in
    let t2_dst := Expansion.get_dst (_out_expansion u) (t2 rel) in
    if bool_decide (t2 rel ∈ t1_dst) || bool_decide (t1 rel ∈ t2_dst) then true
    else
      let t1_dst := Py.sorted (Translation.get_dst (_out_translation u) (t1 rel)) in
      let t2_dst := Py.sorted (Translation.get_dst (_out_translation u) (t2 rel)) in
      if bool_decide (t2 rel ∈ t1_dst) || bool_decide (t1 rel ∈ t2_dst) then true
      else if negb (bool_decide (t1_dst = [])) && bool_decide (t1_dst = t2_dst)
           then true
           else false.

(** [add_tag]: add the tag to the taxonomy unless it has translation
    destinations. *)
Definition add_tag (name path : string) (u : Update) : Update :=
  match Translation.get_dst (_out_translation u) name with
  | [] => set_taxonomy (Taxonomy.add_tag (_out_taxonomy u) path) u
  | _ :: _ => u
  end.

(** [add_expansion] *)
Definition add_expansion (src : string) (dst_l : list string) (u : Update)
  : Update :=
  let new_src :=
    match Translation.get_dst (_out_translation u) src with
    | d0 :: _ => d0
    | [] => src
    end in
  match Expansion.get_dst (_out_expansion u) src with
  | (_ :: _) as dst =>
      let target_l := Taxonomy.remove_overlaps (_out_taxonomy u) (dst ++ dst_l) in
      set_expansion (Expansion.add_rule (_out_expansion u) new_src target_l true) u
  | [] =>
      set_expansion (Expansion.add_rule (_out_expansion u) new_src dst_l true) u
  end.

(** The loop of [add_alias] over the destinations of [src]:
    [cnt = self.src_map.get(e, 0); if cnt > cnt_max: target = e]. The values
    of [src_map] are the strings read from the file, so [>] compares
    strings; for an [e] missing from [src_map] it compares the integer [0]
    with a string, which raises [TypeError]. *)
Fixpoint add_alias_target (sm : gmap string string) (cnt_max : string)
    (tr_dst : list string) (target : string) : result string :=
  match tr_dst with
  | [] => Ok target
  | e :: rest =>
      match sm !! e with
      | None => Raise TypeError
      | Some cnt =>
          add_alias_target sm cnt_max rest
            (if String.ltb cnt_max cnt then e else target)
      end
  end.

(** [add_alias] *)
Definition add_alias (src dst dst_prefix : string) (u : Update)
  : result Update :=
  let chosen :=
    match Translation.get_dst (_out_translation u) src with
    | [] => Ok dst
    | (_ :: _) as tr_dst =>
        match src_map u !! dst with
        | None => Raise KeyError
        | Some cnt_max => add_alias_target (src_map u) cnt_max tr_dst dst
        end
    end in
  match chosen with
  | Raise e => Raise e
  | Ok target =>
      let '(target_l, tax) :=
        match Translation.get_dst (_out_translation u) dst with
        | (_ :: _) as tr_dst => (tr_dst, _out_taxonomy u)
        | [] => ([target],
                 Taxonomy.add_tag (_out_taxonomy u) (dst_prefix +:+ ":" +:+ dst))
        end in
      let tax := Taxonomy.remove_tag tax src in
      Ok (set_translation
            (Translation.add_rule (_out_translation u) src target_l true)
            (set_taxonomy tax u))
  end.

(** [is_expansion_rel] *)
Definition is_expansion_rel (u : Update) (rel : Relation) : bool :=
  let c1 := Taxonomy.get_category (_out_taxonomy u) (t1 rel) in
  let c2 := Taxonomy.get_category (_out_taxonomy u) (t2 rel) in
  ((c1 =? "FAM")%string && negb (c2 =? c1)%string && negb (c2 =? "UNK")%string)
  || ((c1 =? "CLASS")%string && ((c2 =? "FILE")%string || (c2 =? "BEH")%string))
  || ((c1 =? "UNK")%string && ((c2 =? "BEH")%string || (c2 =? "CLASS")%string)).

Fixpoint find_expansions_loop (l acc : list Relation) (u : Update)
  : list Relation * Update :=
  match l with
  | [] => (acc, u)
  | rel :: rest =>
      let p1 := Taxonomy.get_path (_out_taxonomy u) (t1 rel) in
      let p2 := Taxonomy.get_path (_out_taxonomy u) (t2 rel) in
      let u := emit (LogProcessing p1 p2) u in
      match Translation.get_dst (_out_translation u) (t1 rel) with
      | _ :: _ => find_expansions_loop rest acc (emit (LogIgnoringAlias p1) u)
      | [] =>
          if is_expansion_rel u rel
          then find_expansions_loop rest (acc ++ [rel])
                 (add_expansion (t1 rel) [t2 rel] u)
          else find_expansions_loop rest acc u
      end
  end.

(** [find_expansions] *)
Definition find_expansions (u : Update) : Update :=
  let '(acc, u') := find_expansions_loop (set_iter rt (rel_set u)) [] u in
  set_rel_set (rel_set u' ∖ list_to_set acc) u'.

(** [p[0:p.rfind(':')]] *)
Definition prefix_of_path (p : string) : string :=
  Py.slice_to p (Py.rfind Py.colon p).

(** [process_relation]: the result is what the method returns, [1], [0] or
    [-1]. The left operand [float(rel.tinv_alias_num)] is evaluated before
    the global name [args] is looked up. *)
Definition process_relation (rel : Relation) (u : Update)
  : result (Z * Update) :=
  let '(p1, c1) := Taxonomy.get_info (_out_taxonomy u) (t1 rel) in
  let '(p2, c2) := Taxonomy.get_info (_out_taxonomy u) (t2 rel) in
  let u := emit (LogProcessing p1 p2) u in
  let alias (prefix : string) : result (Z * Update) :=
    match add_alias (t1 rel) (t2 rel) prefix u with
    | Raise e => Raise e
    | Ok u' => Ok (1, u')
    end in
  match py_float rt (tinv_alias_num rel) with
  | None => Raise ValueError
  | Some r =>
      match g_args rt with
      | None => Raise NameError
      | Some a =>
          if Qle_bool (args_t a) r then
            if negb (c1 =? "UNK")%string && (c2 =? "UNK")%string
            then alias (prefix_of_path p1)
            else if (c1 =? "UNK")%string && negb (c2 =? "UNK")%string
            then alias (prefix_of_path p2)
            else if (c1 =? "UNK")%string && (c2 =? "UNK")%string
            then alias "FAM"
            else if (c1 =? c2)%string
            then alias (prefix_of_path p1)
            else Ok (-1, emit (LogDifferentCategories p1 p2) u)
          else if (c1 =? "UNK")%string && (c2 =? "FAM")%string
          then alias "FAM"
          else if (c1 =? "UNK")%string && (c2 =? "CLASS")%string
          then Ok (0, add_tag (t1 rel) ("FAM:" +:+ t1 rel) u)
          else if (c1 =? "UNK")%string && (c2 =? "BEH")%string
          then Ok (0, add_tag (t1 rel) ("FAM:" +:+ t1 rel) u)
          else if (c1 =? "UNK")%string && (c2 =? "FILE")%string
          then Ok (1, add_tag (t1 rel) (p2 +:+ ":" +:+ t1 rel) u)
          else if (c1 =? "UNK")%string && (c2 =? "UNK")%string
          then alias "FAM"
          else if (c1 =? "FAM")%string && (c2 =? "UNK")%string
          then alias "FAM"
          else if (c1 =? "FILE")%string && (c2 =? "UNK")%string
          then alias (prefix_of_path p1)
          else if (c1 =? "FAM")%string && (c2 =? "FAM")%string
          then alias (prefix_of_path p2)
          else if (c2 =? "UNK")%string
          then Ok (0, u)
          else Ok (0, u)
      end
  end.

(** The inner loop of [run]: relations are popped one at a time; [l] is
    what is still in [self.rel_set], in the order it will be popped. *)
Fixpoint run_inner (l : list Relation) (cnt : nat) (new_set : gset Relation)
    (u : Update) : result (nat * gset Relation * Update) :=
  match l with
  | [] => Ok (cnt, new_set, u)
  | rel :: rest =>
      if is_known_rel u rel then run_inner rest cnt new_set u
      else
        match process_relation rel u with
        | Raise e => Raise e
        | Ok (result, u') =>
            if result =? 0
            then run_inner rest cnt ({[rel]} ∪ new_set) u'
            else run_inner rest (S cnt) new_set u'
        end
  end.

(** One iteration of the outer loop of [run], up to and including
    [self.rel_set = new_set]; it returns [cnt]. *)
Definition run_pass (num_iter : nat) (u : Update) : result (nat * Update) :=
  match run_inner (set_iter rt (rel_set u)) 0%nat ∅ (emit (LogPass num_iter) u) with
  | Raise e => Raise e
  | Ok (cnt, new_set, u') => Ok (cnt, set_rel_set new_set u')
  end.

(** The outer loop of [run]. [fuel] bounds the number of passes; [None]
    means that the bound was reached before the loop ended. *)
Fixpoint run_loop (fuel : nat) (num_iter : nat) (u : Update)
  : option (result Update) :=
  if decide (rel_set u = ∅) then Some (Ok u)
  else
    match fuel with
    | O => None
    | S fuel' =>
        match run_pass num_iter u with
        | Raise e => Some (Raise e)
        | Ok (cnt, u') =>
            if (cnt =? 0)%nat then Some (Ok u')
            else run_loop fuel' (S num_iter) u'
        end
    end.

(** [run]: the loop, then [find_expansions]. The loop is given as many
    passes as the working set has relations, which is shown below to be
    always enough. *)
Definition run (u : Update) : option (result Update) :=
  match run_loop (size (rel_set u)) 0%nat u with
  | None => None
  | Some (Raise e) => Some (Raise e)
  | Some (Ok u') => Some (Ok (find_expansions (emit LogFindingExpansions u')))
  end.

(** [line.strip().split('\t')] unpacked into the seven fields; [None] is
    the [ValueError] of an unpacking with the wrong number of values. *)
Definition parse_line (line : string) : option Relation :=
  Relation_of_fields (Py.split Py.tab (Py.strip line)).

(** The loop of [read_relations] over the lines of the file. *)
Fixpoint read_relations_loop (lines : list string) (acc : gset Relation)
    (u : Update) : result (gset Relation * Update) :=
  match lines with
  | [] => Ok (acc, u)
  | line :: rest =>
      if Py.startswith Py.hash line then read_relations_loop rest acc u
      else
        match parse_line line with
        | None => Raise ValueError
        | Some rel =>
            match is_weak_rel u rel with
            | Raise e => Raise e
            | Ok true => read_relations_loop rest acc u
            | Ok false =>
                if is_blacklisted_rel u rel
                then read_relations_loop rest acc u
                else read_relations_loop rest ({[rel]} ∪ acc)
                       (set_src_map
                          (<[t2 rel := t2_num rel]>
                             (<[t1 rel := t1_num rel]> (src_map u))) u)
            end
        end
  end.

(** [read_relations] once the file is open: the body of its [with] block,
    on the lines of the file. [read_relations_file] below starts from the
    path. *)
Definition read_relations (lines : list string) (u : Update)
  : result (gset Relation * Update) :=
  read_relations_loop lines ∅ u.

(** [__init__] for a file of relations that opens with the lines [lines];
    [init_file] below starts from the path. *)
Definition init (lines : list string)
    (in_taxonomy : gmap string Taxonomy.Tag)
    (in_translation in_expansion : gmap string (list string))
    (n : Z) (t : Q) : result Update :=
  let u := {| _out_taxonomy := in_taxonomy; _out_translation := in_translation;
              _out_expansion := in_expansion; _n := n; _t := t;
              blist := Taxonomy.platform_tags in_taxonomy;
              src_map := ∅; rel_set := ∅; logged := [] |} in
  match read_relations lines u with
  | Raise e => Raise e
  | Ok (rs, u') => Ok (set_rel_set rs u')
  end.

End Methods.

(** ** A concrete runtime, for the worked examples *)

Module Concrete.

Fixpoint digits (s : string) (acc : Z) : option Z :=
  match s with
  | EmptyString => Some acc
  | String a s' =>
      match Ascii.is_nat a with
      | Some d => digits s' (10 * acc + Z.of_nat d)
      | None => None
      end
  end.

Definition natural (s : string) : option Z :=
  match s with
  | EmptyString => None
  | _ => digits s 0
  end.

Definition signed {A} (neg : A → A) (body : string → option A) (s : string)
  : option A :=
  match Py.strip s with
  | String "-" s' => neg <$> body s'
  | String "+" s' => body s'
  | s' => body s'
  end.

(** [int(s)] on plain decimal literals. *)
Definition decimal_int : string → option Z := signed Z.opp natural.

Definition unsigned_decimal (s : string) : option Q :=
  match Py.split "."%char s with
  | [i] => inject_Z <$> natural i
  | [i; f] =>
      match natural i, natural f with
      | Some iv, Some fv =>
          let scale := 10 ^ Z.of_nat (String.length f) in
          Some (Qmake (iv * scale + fv) (Z.to_pos scale))
      | _, _ => None
      end
  | _ => None
  end.

(** [float(s)] on plain decimal literals [d.ddd], read as the decimal they
    write. Binary64 rounding is monotone, so an order between two such
    values that differ by more than the rounding error, as all the
    examples below compare, is the order of the floats. *)
Definition decimal_float : string → option Q := signed Qopp unsigned_decimal.

(** A runtime whose sets iterate in the order of [elements]; [a] is the
    binding of the global [args]. *)
Definition runtime (a : option Args) : Runtime :=
  {| py_int := decimal_int; py_float := decimal_float;
     set_iter := elements;
     set_iter_perm := λ X, Permutation_refl (elements X);
     g_args := a |}.

(** The namespace [main] builds for [-t 0.94]. *)
Definition args94 : Args := {| args_t := 94 # 100 |}.

(** A line of the relation file: the fields joined by tabs, and a newline. *)
Definition line (fields : list string) : string :=
  String.concat (String Py.tab EmptyString) fields
  +:+ String (Ascii.ascii_of_nat 10) EmptyString.

Definition tag (p : string) : Taxonomy.Tag :=
  {| Taxonomy.path := p; Taxonomy.platform := false |}.

End Concrete.

(** * Definitions used by the statements *)

(** A rule of the table [m] links [a] and [b], in one direction or the
    other. *)
Definition linked (m : gmap string (list string)) (a b : string) : Prop :=
  b ∈ Rules.get_dst m a ∨ a ∈ Rules.get_dst m b.

(** [a] and [b] have the same, non-empty, destinations in the table [m]. *)
Definition same_destinations (m : gmap string (list string)) (a b : string)
  : Prop :=
  Rules.get_dst m a ≠ [] ∧ Rules.get_dst m a ≡ₚ Rules.get_dst m b.

Section LoadingDefs.

Variable rt : Runtime.

(** The relation a line of the file adds to the working set, if any. *)
Definition kept (u : Update) (line : string) : option Relation :=
  if Py.startswith Py.hash line then None
  else match parse_line line with
       | None => None
       | Some rel =>
           match is_weak_rel rt u rel with
           | Ok false => if is_blacklisted_rel u rel then None else Some rel
           | _ => None
           end
       end.

(** The two assignments [self.src_map[rel.t1] = rel.t1_num] and
    [self.src_map[rel.t2] = rel.t2_num]. *)
Definition record_counts (m : gmap string string) (rel : Relation)
  : gmap string string :=
  <[t2 rel := t2_num rel]> (<[t1 rel := t1_num rel]> m).

End LoadingDefs.

(** The count that is recorded for a token once the given relations have
    been recorded in order: the one written last, and within one relation
    the assignment for [t2] comes after the one for [t1]. *)
Fixpoint last_count (tok : string) (rels : list Relation) : option string :=
  match rels with
  | [] => None
  | rel :: rest =>
      match last_count tok rest with
      | Some c => Some c
      | None =>
          if decide (t2 rel = tok) then Some (t2_num rel)
          else if decide (t1 rel = tok) then Some (t1_num rel)
          else None
      end
  end.

(** The claim of the specification: the table holds, for a token of a
    relation of the working set, a count that no relation of the working set
    exceeds for that token. *)
Definition src_map_holds_maximum (rt : Runtime) (u : Update) : Prop :=
  ∀ rel tok c, rel ∈ rel_set u → src_map u !! tok = Some c →
    (t1 rel = tok →
       ∃ x m, py_int rt (t1_num rel) = Some x ∧ py_int rt c = Some m ∧ x ≤ m)
    ∧ (t2 rel = tok →
       ∃ x m, py_int rt (t2_num rel) = Some x ∧ py_int rt c = Some m ∧ x ≤ m).


(** ** Expansion rules *)

(** No two destinations of the list, at different positions, overlap in the
    taxonomy. *)
Definition pairwise_nonoverlap (tax : gmap string Taxonomy.Tag)
    (l : list string) : Prop :=
  ∀ (i j : nat) a b, l !! i = Some a → l !! j = Some b → i ≠ j →
    Taxonomy.overlaps tax a b = false.

(** The source under which [add_expansion src _] files its rule: the first
    translation destination of [src], or [src] itself. *)
Definition rule_source (u : Update) (src : string) : string :=
  match Translation.get_dst (_out_translation u) src with
  | d0 :: _ => d0
  | [] => src
  end.

(** The claim of the specification for one call of [add_expansion]: the
    destinations committed for the rule's source do not overlap. *)
Definition expansion_nonoverlap_after (u : Update) (src : string)
    (dst_l : list string) : Prop :=
  let u' := add_expansion src dst_l u in
  pairwise_nonoverlap (_out_taxonomy u')
    (Expansion.get_dst (_out_expansion u') (rule_source u src)).

(** ** Outcomes of the classifier *)

(** What a call of [process_relation] that returns has done, as a relation
    between the object after the call's debug record, the returned value and
    the object it leaves: an alias was merged (1), [t1] was offered to the
    taxonomy as a new tag (0 or 1), nothing was done (0), or a contradiction
    of categories was logged (-1). *)
Inductive classified (rel : Relation) (u0 : Update) : Z → Update → Prop :=
| classified_alias prefix u' :
    add_alias (t1 rel) (t2 rel) prefix u0 = Ok u' → classified rel u0 1 u'
| classified_tag z p :
    z = 0 ∨ z = 1 →
    classified rel u0 z (add_tag (t1 rel) (p +:+ ":" +:+ t1 rel) u0)
| classified_deferred : classified rel u0 0 u0
| classified_contradiction p1 p2 :
    classified rel u0 (-1) (emit (LogDifferentCategories p1 p2) u0).

(** The claim of the specification for the alias scenario: after the
    classification [UNK_A] is a translation source with the destination
    [FAM:upatre] and is not in the taxonomy. *)
Definition alias_into_upatre (rt : Runtime) (u : Update) (rel : Relation)
  : Prop :=
  ∃ z u', process_relation rt rel u = Ok (z, u')
    ∧ Translation.get_dst (_out_translation u') "UNK_A" = ["FAM:upatre"]
    ∧ Taxonomy.is_tag (_out_taxonomy u') "UNK_A" = false.

(** ** Passes of the loop of [run] *)

(** The number of passes an object has logged: every iteration of the outer
    loop of [run] begins with one [LogPass] record, and nothing else writes
    one. *)
Fixpoint count_passes (log : list LogRecord) : nat :=
  match log with
  | [] => 0
  | LogPass _ :: rest => S (count_passes rest)
  | _ :: rest => count_passes rest
  end.

Definition passes (u : Update) : nat := count_passes (logged u).

(** The fields of the object that classification never writes. *)
Definition frame (u : Update) : Z * Q * gset string * gmap string string * gset Relation :=
  (_n u, _t u, blist u, src_map u, rel_set u).

(** The tags the relations of a working set name. *)
Definition tokens (X : gset Relation) : gset string :=
  list_to_set (flat_map (λ r, [t1 r; t2 r]) (elements X)).

(** The tags of the working set that are of category [UNK] in the taxonomy
    the run starts from. *)
Definition initially_unk_tags (u : Update) : gset string :=
  filter (λ t, Taxonomy.get_category (_out_taxonomy u) t = "UNK")
    (tokens (rel_set u)).

(** The claim of the specification: a run makes at most as many passes as
    there are initially unknown tags. *)
Definition passes_bounded_by_unk_tags (rt : Runtime) (u : Update) : Prop :=
  ∀ u', run rt u = Some (Ok u') →
        (passes u' - passes u ≤ size (initially_unk_tags u))%nat.

(** ** Outcomes of a pass *)







(** ** The category invariant *)

(** A tag without [:]. *)
Fixpoint colon_free (s : string) : bool :=
  match s with
  | EmptyString => true
  | String a s' => negb (Ascii.eqb a Py.colon) && colon_free s'
  end.

(** The tags of the relations are plain names: the taxonomy files a path under the
    name after its last [:], so that a tag holding a [:] is not the name of the
    path built from it. *)
Definition tokens_colon_free (X : gset Relation) : Prop :=
  ∀ rel, rel ∈ X → colon_free (t1 rel) = true ∧ colon_free (t2 rel) = true.

(** No tag is at once a taxonomy entry and a translation source. *)
Definition category_invariant (u : Update) : Prop :=
  ∀ t, Taxonomy.is_tag (_out_taxonomy u) t = true →
       Translation.get_dst (_out_translation u) t = [].

(** The claim of the specification: a complete run from a knowledge base
    in which no tag is both a taxonomy entry and a translation source ends
    in such a knowledge base. *)
Definition category_invariant_after_run (rt : Runtime) (u : Update) : Prop :=
  category_invariant u →
  ∀ u', run rt u = Some (Ok u') → category_invariant u'.

(** ** Inputs of the worked examples *)

Module Ex.

(** An object with the given stores and working set, the default thresholds
    [-n 20 -t 0.94], no platform tag and no recorded count. *)
Definition object (tax : gmap string Taxonomy.Tag)
    (tr ex : gmap string (list string)) (rels : gset Relation) : Update :=
  {| _out_taxonomy := tax; _out_translation := tr; _out_expansion := ex;
     _n := 20; _t := 94 # 100; blist := ∅; src_map := ∅; rel_set := rels;
     logged := [] |}.

(** A taxonomy with the file property [windows] below [os]. *)
Definition tax_os : gmap string Taxonomy.Tag :=
  <["os" := Concrete.tag "FILE:os"]>
    (<["windows" := Concrete.tag "FILE:os:windows"]> ∅).

(** Two lines that both name [a], with the occurrence counts 900 and 100. *)
Definition lines_two_counts : list string :=
  [Concrete.line ["a"; "b"; "900"; "50"; "30"; "0.99"; "0.99"];
   Concrete.line ["a"; "c"; "100"; "60"; "30"; "0.99"; "0.99"]].

Definition rel_a_b : Relation :=
  {| t1 := "a"; t2 := "b"; t1_num := "900"; t2_num := "50";
     nalias_num := "30"; talias_num := "0.99"; tinv_alias_num := "0.99" |}.

(** The taxonomy of the alias scenario: the family [upatre]. *)
Definition tax_upatre : gmap string Taxonomy.Tag :=
  <["upatre" := Concrete.tag "FAM:upatre"]> ∅.

Definition lines_upatre : list string :=
  [Concrete.line ["upatre"; "UNK_A"; "500"; "500"; "480"; "0.96"; "0.96"]].

Definition rel_upatre : Relation :=
  {| t1 := "upatre"; t2 := "UNK_A"; t1_num := "500"; t2_num := "500";
     nalias_num := "480"; talias_num := "0.96"; tinv_alias_num := "0.96" |}.

(** The object [main] builds for that file and taxonomy, with empty rule
    tables: what [init] returns for them. *)
Definition object_upatre : Update :=
  {| _out_taxonomy := tax_upatre; _out_translation := ∅; _out_expansion := ∅;
     _n := 20; _t := 94 # 100; blist := ∅;
     src_map := <["UNK_A" := "500"]> (<["upatre" := "500"]> ∅);
     rel_set := {[rel_upatre]}; logged := [] |}.

(** The contradiction scenario: the family [zbot] and the class
    [downloader], strongly related in both directions. *)
Definition tax_contradiction : gmap string Taxonomy.Tag :=
  <["zbot" := Concrete.tag "FAM:zbot"]>
    (<["downloader" := Concrete.tag "CLASS:downloader"]> ∅).

Definition lines_contradiction : list string :=
  [Concrete.line ["zbot"; "downloader"; "500"; "500"; "480"; "0.96"; "0.96"]].

Definition rel_contradiction : Relation :=
  {| t1 := "zbot"; t2 := "downloader"; t1_num := "500"; t2_num := "500";
     nalias_num := "480"; talias_num := "0.96"; tinv_alias_num := "0.96" |}.

Definition object_contradiction : Update :=
  {| _out_taxonomy := tax_contradiction; _out_translation := ∅;
     _out_expansion := ∅; _n := 20; _t := 94 # 100; blist := ∅;
     src_map := <["downloader" := "500"]> (<["zbot" := "500"]> ∅);
     rel_set := {[rel_contradiction]}; logged := [] |}.

(** An alias [zeus] of the family [zbot], related to a family [gameover];
    [zbot] itself is in no relation of the file. *)
Definition object_zeus : Update :=
  {| _out_taxonomy :=
       <["zbot" := Concrete.tag "FAM:zbot"]>
         (<["gameover" := Concrete.tag "FAM:gameover"]> ∅);
     _out_translation := <["zeus" := ["zbot"]]> ∅;
     _out_expansion := ∅; _n := 20; _t := 94 # 100; blist := ∅;
     src_map := <["gameover" := "100"]> (<["zeus" := "100"]> ∅);
     rel_set := ∅; logged := [] |}.

Definition rel_zeus : Relation :=
  {| t1 := "zeus"; t2 := "gameover"; t1_num := "100"; t2_num := "100";
     nalias_num := "50"; talias_num := "0.96"; tinv_alias_num := "0.50" |}.

(** Three tags of known category: the families [zbot] and [citadel] and the
    class [banker]; [citadel] is related to [zbot], [banker] to [citadel]. *)
Definition rel_citadel : Relation :=
  {| t1 := "citadel"; t2 := "zbot"; t1_num := "100"; t2_num := "100";
     nalias_num := "50"; talias_num := "0.96"; tinv_alias_num := "0.50" |}.

Definition rel_banker : Relation :=
  {| t1 := "banker"; t2 := "citadel"; t1_num := "100"; t2_num := "100";
     nalias_num := "50"; talias_num := "0.96"; tinv_alias_num := "0.50" |}.

Definition object_families : Update :=
  {| _out_taxonomy :=
       <["zbot" := Concrete.tag "FAM:zbot"]>
         (<["citadel" := Concrete.tag "FAM:citadel"]>
            (<["banker" := Concrete.tag "CLASS:banker"]> ∅));
     _out_translation := ∅; _out_expansion := ∅;
     _n := 20; _t := 94 # 100; blist := ∅;
     src_map := <["banker" := "100"]> (<["citadel" := "100"]>
                  (<["zbot" := "100"]> ∅));
     rel_set := {[rel_citadel; rel_banker]}; logged := [] |}.

(** A relation between [os] and its descendant [windows]. *)
Definition rel_os : Relation :=
  {| t1 := "windows"; t2 := "os"; t1_num := "100"; t2_num := "100";
     nalias_num := "50"; talias_num := "0.96"; tinv_alias_num := "0.96" |}.

Definition object_os : Update :=
  {| _out_taxonomy := tax_os; _out_translation := ∅; _out_expansion := ∅;
     _n := 20; _t := 94 # 100; blist := ∅;
     src_map := <["os" := "100"]> (<["windows" := "100"]> ∅);
     rel_set := {[rel_os]}; logged := [] |}.



(** An unknown tag [newfam] related to the class [downloader]. *)
Definition rel_newfam : Relation :=
  {| t1 := "newfam"; t2 := "downloader"; t1_num := "500"; t2_num := "500";
     nalias_num := "480"; talias_num := "0.96"; tinv_alias_num := "0.50" |}.

Definition object_newfam : Update :=
  {| _out_taxonomy := <["downloader" := Concrete.tag "CLASS:downloader"]> ∅;
     _out_translation := ∅; _out_expansion := ∅;
     _n := 20; _t := 94 # 100; blist := ∅;
     src_map := <["downloader" := "500"]> (<["newfam" := "500"]> ∅);
     rel_set := {[rel_newfam]}; logged := [] |}.

(** The examples of the specification for the loader: a joint count of 15,
    a ratio of 0.80, a platform tag, and a relation that passes. *)
Definition tax_platform : gmap string Taxonomy.Tag :=
  <["windows" := {| Taxonomy.path := "FILE:os:windows"; Taxonomy.platform := true |}]>
    tax_upatre.

Definition lines_filtered : list string :=
  ["# t1 t2 counts";
   Concrete.line ["a"; "b"; "500"; "500"; "15"; "0.96"; "0.96"];
   Concrete.line ["c"; "d"; "500"; "500"; "25"; "0.80"; "0.96"];
   Concrete.line ["upatre"; "windows"; "500"; "500"; "480"; "0.99"; "0.99"];
   Concrete.line ["upatre"; "UNK_A"; "500"; "500"; "480"; "0.96"; "0.96"]].

End Ex.

(** * More of the module: definitions *)

(** ** Methods of [Update] that the statements above do not use *)

(** [num_rules]: [len(self.rel_set)]. *)
Definition num_rules (u : Update) : nat := size (rel_set u).

(** Python's [<] on pairs of strings: the first components decide unless
    they are equal. *)
Definition tuple_lt (a b : string * string) : bool :=
  if String.eqb (fst a) (fst b) then String.ltb (snd a) (snd b)
  else String.ltb (fst a) (fst b).

Section SortedByKey.

Context {A K : Type} (lt : K → K → bool) (key : A → K).

(** [x] goes before the first element whose key is above its own, so after
    every element with the same key. *)
Fixpoint insert_by_key (x : A) (l : list A) : list A :=
  match l with
  | [] => [x]
  | y :: l' =>
      if lt (key x) (key y) then x :: y :: l' else y :: insert_by_key x l'
  end.

(** [sorted(l, key=key)]: ascending in the key, and stable. *)
Definition sorted_by_key (l : list A) : list A :=
  foldl (λ acc x, insert_by_key x acc) [] l.

(** [y] is not placed before [x]. *)
Definition not_above (x y : A) : Prop := lt (key y) (key x) = false.

End SortedByKey.

(** ["%s\t%s\t...\n" % fields]: the fields joined by tabs, and a newline. *)
Definition tsv_line (fields : list string) : string :=
  String.concat (String Py.tab EmptyString) fields
  +:+ String (Ascii.ascii_of_nat 10) EmptyString.

(** The first line [output_relations] writes. *)
Definition relations_header : string :=
  tsv_line ["# t1"; "t2"; "|t1|"; "|t2|"; "|t1^t2|"; "|t1^t2|/|t1|";
            "|t1^t2|/|t2|"].

(** The key of the sort in [output_relations]. *)
Definition category_pair (u : Update) (rel : Relation) : string * string :=
  (Taxonomy.get_category (_out_taxonomy u) (t1 rel),
   Taxonomy.get_category (_out_taxonomy u) (t2 rel)).

(** The line [output_relations] writes for a relation. *)
Definition output_line (u : Update) (rel : Relation) : string :=
  let '(p1, c1) := Taxonomy.get_info (_out_taxonomy u) (t1 rel) in
  let '(p2, c2) := Taxonomy.get_info (_out_taxonomy u) (t2 rel) in
  tsv_line [p1; p2; t1_num rel; t2_num rel; nalias_num rel; talias_num rel;
            tinv_alias_num rel].

(** [output_relations]: what is written to the file, one string for each
    [fd.write]. Opening the file is left to the file system. *)
Definition output_relations (rt : Runtime) (u : Update) : list string :=
  let sorted_rules :=
    sorted_by_key tuple_lt (category_pair u) (set_iter rt (rel_set u)) in
  relations_header :: List.map (output_line u) sorted_rules.

(** ** The file of relations *)

(** What the file system answers to [open(filepath, 'r')] and to the
    iteration [for line in fd] that follows: the lines of the file, each
    with its line end, or the exception raised, an [OSError]
    ([FileNotFoundError], [PermissionError], ...) for a path that cannot be
    opened. *)
Definition FileSystem := string → result (list string).

(** [open(filepath, 'r')], read to the end of the file. *)
Definition open (fs : FileSystem) (filepath : string) : result (list string) :=
  fs filepath.

(** [read_relations] from its [with open(filepath, 'r') as fd]; the loop
    over the lines is [read_relations] above. *)
Definition read_relations_file (rt : Runtime) (fs : FileSystem)
    (filepath : string) (u : Update) : result (gset Relation * Update) :=
  match open fs filepath with
  | Raise e => Raise e
  | Ok lines => read_relations rt lines u
  end.

(** [__init__] from the path of the file of relations. *)
Definition init_file (rt : Runtime) (fs : FileSystem) (filepath : string)
    (in_taxonomy : gmap string Taxonomy.Tag)
    (in_translation in_expansion : gmap string (list string))
    (n : Z) (t : Q) : result Update :=
  match open fs filepath with
  | Raise e => Raise e
  | Ok lines => init rt lines in_taxonomy in_translation in_expansion n t
  end.

(** ** Definitions used by the further statements *)

(** The relation with its two tags replaced by their taxonomy paths. *)
Definition with_paths (u : Update) (rel : Relation) : Relation :=
  {| t1 := Taxonomy.get_path (_out_taxonomy u) (t1 rel);
     t2 := Taxonomy.get_path (_out_taxonomy u) (t2 rel);
     t1_num := t1_num rel; t2_num := t2_num rel; nalias_num := nalias_num rel;
     talias_num := talias_num rel; tinv_alias_num := tinv_alias_num rel |}.

(** A string without a tab. *)
Fixpoint tab_free (s : string) : bool :=
  match s with
  | EmptyString => true
  | String a s' => negb (Ascii.eqb a Py.tab) && tab_free s'
  end.

(** A string that is not empty and does not start with a white space
    character, given the tests of [Py.lstrip_by]. *)
Definition clean_by (p1 : ascii → bool) (p2 : ascii → ascii → bool)
    (p3 : ascii → ascii → ascii → bool) (s : string) : bool :=
  match s with
  | EmptyString => false
  | String a s1 =>
      negb (p1 a)
      && match s1 with
         | EmptyString => true
         | String b s2 =>
             negb (p2 a b)
             && match s2 with
                | EmptyString => true
                | String c _ => negb (p3 a b c)
                end
         end
  end.

(** A string that is not empty and does not start with white space. *)
Definition starts_clean (s : string) : bool :=
  clean_by Py.isspace Py.isspace2 Py.isspace3 s.

(** A string that is not empty and does not end with white space. *)
Definition ends_clean (s : string) : bool :=
  clean_by Py.isspace (λ b a, Py.isspace2 a b) (λ c b a, Py.isspace3 a b c)
    (String.rev s).

(** A line the loader accepts: a comment, or seven fields of which the
    fifth converts with [int] and, unless that count is below [n], the sixth
    converts with [float]. *)
Definition well_formed_line (rt : Runtime) (n : Z) (line : string) : Prop :=
  Py.startswith Py.hash line = true
  ∨ ∃ rel j, parse_line line = Some rel
       ∧ py_int rt (nalias_num rel) = Some j
       ∧ (j < n ∨ is_Some (py_float rt (talias_num rel))).

(** The recorded count of [e] is above [cnt_max], as strings compare. *)
Definition count_above (sm : gmap string string) (cnt_max : string)
    (e : string) : bool :=
  match sm !! e with
  | Some cnt => String.ltb cnt_max cnt
  | None => false
  end.

(** The thresholds, the blacklist and the recorded counts of the object. *)
Definition settings (u : Update) : Z * Q * gset string * gmap string string :=
  (_n u, _t u, blist u, src_map u).

(** The test [find_expansions] makes of a relation: its [t1] has no
    translation destination, and [is_expansion_rel] holds. *)
Definition resolved_as_expansion (u : Update) (rel : Relation) : bool :=
  bool_decide (Translation.get_dst (_out_translation u) (t1 rel) = [])
  && is_expansion_rel u rel.

(** Every destination of a translation rule has a recorded count. *)
Definition destinations_recorded (u : Update) : Prop :=
  ∀ s d, d ∈ Translation.get_dst (_out_translation u) s →
         is_Some (src_map u !! d).

(** The seventh field of every relation converts with [float], and the
    second tag of every relation has a recorded count. *)
Definition relations_readable (rt : Runtime) (sm : gmap string string)
    (X : gset Relation) : Prop :=
  ∀ rel, rel ∈ X →
    is_Some (py_float rt (tinv_alias_num rel)) ∧ is_Some (sm !! t2 rel).

(** ** Inputs of the further worked examples *)

Module ExMore.

(** The relation of [Ex.rel_os] seen from the other tag, with other counts. *)
Definition rel_os_swapped : Relation :=
  {| t1 := "os"; t2 := "windows"; t1_num := "7"; t2_num := "9";
     nalias_num := "21"; talias_num := "0.99"; tinv_alias_num := "0.10" |}.

(** Counts under which the destination [x] is above ["10"] with the larger
    string ["30"] and the later destination [y] with ["20"]. *)
Definition counts_xy : gmap string string :=
  <["x" := "30"]> (<["y" := "20"]> ∅).

(** A file system with one file, the file of [Ex.lines_filtered]. *)
Definition fs_filtered : FileSystem :=
  λ filepath,
    if String.eqb filepath "relations.tsv" then Ok Ex.lines_filtered
    else Raise OSError.

(** A translation table in which [b] is an alias of [c]. *)
Definition tr_b_c : gmap string (list string) := {[ "b" := ["c"] ]}.

(** A strong relation whose second tag holds a colon. *)
Definition lines_colon : list string :=
  [Concrete.line ["x"; "a:b"; "500"; "500"; "480"; "0.96"; "0.96"]].

Definition rel_colon : Relation :=
  {| t1 := "x"; t2 := "a:b"; t1_num := "500"; t2_num := "500";
     nalias_num := "480"; talias_num := "0.96"; tinv_alias_num := "0.96" |}.

(** The object [main] builds for that file, an empty taxonomy and that
    translation table: what [init] returns for them. *)
Definition object_colon : Update :=
  {| _out_taxonomy := ∅; _out_translation := tr_b_c; _out_expansion := ∅;
     _n := 20; _t := 94 # 100; blist := ∅;
     src_map := <["a:b" := "500"]> (<["x" := "500"]> ∅);
     rel_set := {[rel_colon]}; logged := [] |}.

End ExMore.

(** * Properties *)

(** ** Facts about [sorted] *)

Lemma sorted_elem (l : list string) (x : string) : x ∈ Py.sorted l ↔ x ∈ l.
Proof. unfold Py.sorted. by rewrite merge_sort_Permutation. Qed.

Lemma sorted_nil (l : list string) : Py.sorted l = [] ↔ l = [].
Proof.
  unfold Py.sorted. split.
  - intros H. apply Permutation_nil_r. rewrite <- H.
    by rewrite merge_sort_Permutation.
  - by intros ->.
Qed.

(** Two lists sort to the same list exactly when they hold the same
    elements, each as many times. *)
Lemma sorted_eq_perm (l1 l2 : list string) :
  Py.sorted l1 = Py.sorted l2 ↔ l1 ≡ₚ l2.
Proof.
  unfold Py.sorted. split.
  - intros H. rewrite <- (merge_sort_Permutation String.le l1), H.
    apply merge_sort_Permutation.
  - intros H. apply (Sorted_unique String.le).
    + apply Sorted_merge_sort; apply _.
    + apply Sorted_merge_sort; apply _.
    + by rewrite !merge_sort_Permutation.
Qed.

(** ** Known relations *)

Lemma is_known_rel_iff (u : Update) (rel : Relation) :
  is_known_rel u rel = true ↔
    Taxonomy.overlaps (_out_taxonomy u) (t1 rel) (t2 rel) = true
    ∨ linked (_out_expansion u) (t1 rel) (t2 rel)
    ∨ linked (_out_translation u) (t1 rel) (t2 rel)
    ∨ same_destinations (_out_translation u) (t1 rel) (t2 rel).
Proof.
  unfold is_known_rel, linked, same_destinations,
    Translation.get_dst, Expansion.get_dst.
  destruct (Taxonomy.overlaps _ _ _); [naive_solver|].
  repeat case_bool_decide; simpl;
    repeat match goal with
      | H : context [_ ∈ Py.sorted _] |- _ => rewrite sorted_elem in H
      | H : context [Py.sorted _ = []] |- _ => rewrite sorted_nil in H
      | H : context [Py.sorted _ = Py.sorted _] |- _ =>
          rewrite sorted_eq_perm in H
      end; naive_solver.
Qed.

(** For destination lists without repetitions, as a table of sets returns
    them, having the same destinations up to order is having the same set of
    destinations. *)
Lemma same_destinations_as_sets (m : gmap string (list string)) (a b : string) :
  NoDup (Rules.get_dst m a) → NoDup (Rules.get_dst m b) →
  same_destinations m a b ↔
    Rules.get_dst m a ≠ []
    ∧ ∀ x, x ∈ Rules.get_dst m a ↔ x ∈ Rules.get_dst m b.
Proof.
  intros Ha Hb. unfold same_destinations. split.
  - intros [Hne Hp]. split; [done|]. intros x. by rewrite Hp.
  - intros [Hne Hx]. split; [done|]. by apply NoDup_Permutation.
Qed.

(** ** The inner loop of [run] *)

Section Pass.

Variable rt : Runtime.

Lemma run_inner_app (l1 l2 : list Relation) cnt ns u :
  run_inner rt (l1 ++ l2) cnt ns u =
    match run_inner rt l1 cnt ns u with
    | Ok (c, n, u1) => run_inner rt l2 c n u1
    | Raise e => Raise e
    end.
Proof.
  revert cnt ns u. induction l1 as [|rel l1 IH]; intros cnt ns u; simpl; [done|].
  destruct (is_known_rel u rel); [apply IH|].
  destruct (process_relation rt rel u) as [[z u']|e]; [|done].
  destruct (z =? 0); apply IH.
Qed.

(** What a run of the inner loop does to the counter and to the new set:
    only relations of the list enter the new set, and every relation of the
    list accounts for at most one unit of counter or one new element. *)
Lemma run_inner_bounds (l : list Relation) cnt ns u cnt' ns' u' :
  run_inner rt l cnt ns u = Ok (cnt', ns', u') →
  ns' ⊆ ns ∪ list_to_set l
  ∧ (cnt' + size ns' ≤ cnt + size ns + length l)%nat.
Proof.
  revert cnt ns u. induction l as [|rel l IH]; intros cnt ns u; simpl.
  - intros [= <- <- <-]. split; [set_solver|lia].
  - destruct (is_known_rel u rel).
    { intros H. apply IH in H as [H1 H2]. split; [set_solver|lia]. }
    destruct (process_relation rt rel u) as [[z u1]|e]; [|done].
    destruct (z =? 0); intros H; apply IH in H as [H1 H2].
    + split; [set_solver|].
      pose proof (size_union_alt {[rel]} ns) as Hs.
      assert (size ({[rel]} ∪ ns) ≤ S (size ns))%nat; [|lia].
      rewrite Hs, size_singleton.
      pose proof (subseteq_size (ns ∖ {[rel]}) ns ltac:(set_solver)). lia.
    + split; [set_solver|lia].
Qed.

Lemma set_iter_length (X : gset Relation) : length (set_iter rt X) = size X.
Proof. by rewrite (set_iter_perm rt X). Qed.

Lemma set_iter_elem (X : gset Relation) (rel : Relation) :
  rel ∈ set_iter rt X ↔ rel ∈ X.
Proof. by rewrite (set_iter_perm rt X), elem_of_elements. Qed.

Lemma set_iter_NoDup (X : gset Relation) : NoDup (set_iter rt X).
Proof. rewrite (set_iter_perm rt X). apply NoDup_elements. Qed.

(** A pass keeps a subset of the working set, and the relations it counts
    are not kept. *)
Lemma run_pass_bounds (k : nat) (u : Update) cnt u' :
  run_pass rt k u = Ok (cnt, u') →
  rel_set u' ⊆ rel_set u ∧ (cnt + size (rel_set u') ≤ size (rel_set u))%nat.
Proof.
  unfold run_pass.
  destruct (run_inner _ _ _ _ _) as [[[c ns] u1]|e] eqn:E; [|done].
  intros [= <- <-]. apply run_inner_bounds in E as [H1 H2]. simpl.
  rewrite set_iter_length, size_empty in H2. split; [|lia].
  intros x Hx. apply H1 in Hx. apply elem_of_union in Hx as [Hx|Hx].
  - set_solver.
  - apply elem_of_list_to_set in Hx. by apply set_iter_elem in Hx.
Qed.

End Pass.

(** C6. [is_known_rel] answers true exactly when (a) the taxonomy has the
    two tags as overlapping entries, or (b) an expansion rule links them, in
    one direction or the other, or (c) a translation rule does, or (d) both
    have the same non-empty translation destinations. In the loop of [run], a
    relation that is known when it is popped changes nothing: the stores, the
    log, the counter and the new working set are as before it, and the
    relation is not in the working set the pass leaves. *)
Theorem known_relation_dropped (rt : Runtime) (u : Update) (rel : Relation) :
  (is_known_rel u rel = true ↔
     Taxonomy.overlaps (_out_taxonomy u) (t1 rel) (t2 rel) = true
     ∨ linked (_out_expansion u) (t1 rel) (t2 rel)
     ∨ linked (_out_translation u) (t1 rel) (t2 rel)
     ∨ same_destinations (_out_translation u) (t1 rel) (t2 rel))
  ∧ (∀ k w pre post cnt ns cnt' u',
       set_iter rt (rel_set w) = pre ++ rel :: post →
       run_inner rt pre 0%nat ∅ (emit (LogPass k) w) = Ok (cnt, ns, u) →
       is_known_rel u rel = true →
       run_inner rt (pre ++ [rel]) 0%nat ∅ (emit (LogPass k) w) = Ok (cnt, ns, u)
       ∧ (run_pass rt k w = Ok (cnt', u') → rel ∉ rel_set u')).
Proof.
  split; [apply is_known_rel_iff|].
  intros k w pre post cnt ns cnt' u' Hiter Hpre Hknown. split.
  - rewrite run_inner_app, Hpre. simpl. by rewrite Hknown.
  - unfold run_pass. rewrite Hiter, run_inner_app, Hpre. simpl. rewrite Hknown.
    destruct (run_inner rt post cnt ns u) as [[[c n] u1]|e] eqn:Hpost; [|done].
    intros [= <- <-]. simpl.
    pose proof (set_iter_NoDup rt (rel_set w)) as Hnd. rewrite Hiter in Hnd.
    apply NoDup_app in Hnd as (_ & Hpre_post & Hnd).
    apply NoDup_cons in Hnd as [Hpost_rel _].
    apply run_inner_bounds in Hpre as [Hns _].
    apply run_inner_bounds in Hpost as [Hn _].
    intros Hin. apply Hn in Hin. apply elem_of_union in Hin as [Hin|Hin].
    + apply Hns in Hin. apply elem_of_union in Hin as [Hin|Hin]; [set_solver|].
      apply elem_of_list_to_set in Hin. apply (Hpre_post _ Hin). by left.
    + by apply elem_of_list_to_set in Hin.
Qed.

(** ** Loading the relations *)

Section Loading.

Variable rt : Runtime.

Lemma set_src_map_id (u : Update) : set_src_map (src_map u) u = u.
Proof. by destruct u. Qed.

(** A load that succeeds adds the kept relations, in the order of the
    file, and touches nothing of the object but [src_map]. *)
Lemma read_relations_loop_spec (lines : list string) acc u rs u' :
  read_relations_loop rt lines acc u = Ok (rs, u') →
  rs = list_to_set (omap (kept rt u) lines) ∪ acc
  ∧ u' = set_src_map (foldl record_counts (src_map u) (omap (kept rt u) lines)) u.
Proof.
  revert acc u. induction lines as [|line lines IH]; intros acc u.
  { simpl. intros [= <- <-]. split; [set_solver|]. by rewrite set_src_map_id. }
  cbn [read_relations_loop].
  assert (omap (kept rt u) (line :: lines) =
            match kept rt u line with
            | Some r => r :: omap (kept rt u) lines
            | None => omap (kept rt u) lines
            end) as -> by done.
  destruct (Py.startswith Py.hash line) eqn:Hs.
  { assert (kept rt u line = None) as -> by (unfold kept; by rewrite Hs).
    apply IH. }
  destruct (parse_line line) as [rel|] eqn:Hp; [|done].
  destruct (is_weak_rel rt u rel) as [[]|] eqn:Hw; [| |done].
  { assert (kept rt u line = None) as -> by (unfold kept; by rewrite Hs, Hp, Hw).
    apply IH. }
  destruct (is_blacklisted_rel u rel) eqn:Hb.
  { assert (kept rt u line = None) as -> by (unfold kept; by rewrite Hs, Hp, Hw, Hb).
    apply IH. }
  assert (kept rt u line = Some rel) as ->
    by (unfold kept; by rewrite Hs, Hp, Hw, Hb).
  intros H. apply IH in H as [-> ->]. split; [set_solver|]. reflexivity.
Qed.

Lemma is_weak_rel_false (u : Update) (rel : Relation) :
  is_weak_rel rt u rel = Ok false ↔
    (∃ j, py_int rt (nalias_num rel) = Some j ∧ ¬ (j < _n u))
    ∧ (∃ r, py_float rt (talias_num rel) = Some r ∧ ¬ (r < _t u)%Q).
Proof.
  unfold is_weak_rel. destruct (py_int rt (nalias_num rel)) as [j|].
  2:{ split; [done|]. by intros [[? [? _]] _]. }
  destruct (Z.ltb_spec j (_n u)).
  { split; [done|]. intros [[? [[= <-] ?]] _]. lia. }
  destruct (py_float rt (talias_num rel)) as [r|].
  2:{ split; [done|]. by intros [_ [? [? _]]]. }
  destruct (Qle_bool (_t u) r) eqn:E; simpl.
  - apply Qle_bool_iff in E. split; [|done]. intros _.
    split; [exists j; split; [done|lia]|].
    exists r. split; [done|]. by apply Qle_not_lt.
  - split; [done|]. intros [_ [? [[= <-] Hr]]].
    apply Qnot_lt_le, Qle_bool_iff in Hr. congruence.
Qed.

Lemma kept_Some (u : Update) (line : string) (rel : Relation) :
  kept rt u line = Some rel ↔
    Py.startswith Py.hash line = false
    ∧ parse_line line = Some rel
    ∧ is_weak_rel rt u rel = Ok false
    ∧ is_blacklisted_rel u rel = false.
Proof.
  unfold kept. destruct (Py.startswith Py.hash line).
  { split; [done|]. by intros [? _]. }
  destruct (parse_line line) as [rel'|].
  2:{ split; [done|]. by intros (_ & ? & _). }
  destruct (is_weak_rel rt u rel') as [[]|] eqn:E.
  - split; [done|]. intros (_ & [= ->] & ? & _). congruence.
  - destruct (is_blacklisted_rel u rel') eqn:B.
    + split; [done|]. intros (_ & [= ->] & _ & ?). congruence.
    + split; [by intros [= ->]|]. by intros (_ & [= ->] & _).
  - split; [done|]. intros (_ & [= ->] & ? & _). congruence.
Qed.

End Loading.

Lemma is_weak_rel_result rt u rel :
  match is_weak_rel rt u rel with
  | Ok _ => ∃ j, py_int rt (nalias_num rel) = Some j
                 ∧ (j < _n u ∨ is_Some (py_float rt (talias_num rel)))
  | Raise e => e = ValueError
               ∧ ¬ ∃ j, py_int rt (nalias_num rel) = Some j
                        ∧ (j < _n u ∨ is_Some (py_float rt (talias_num rel)))
  end.
Proof.
  unfold is_weak_rel. destruct (py_int rt (nalias_num rel)) as [j|].
  2:{ split; [done|]. by intros (? & ? & _). }
  destruct (Z.ltb_spec j (_n u)).
  { exists j. auto. }
  destruct (py_float rt (talias_num rel)) as [r|].
  - exists j. split; [done|]. right. by eexists.
  - split; [done|]. intros (j' & [= <-] & [?|[? ?]]); [lia|done].
Qed.

Lemma read_relations_loop_result rt lines acc u :
  match read_relations_loop rt lines acc u with
  | Ok _ => Forall (well_formed_line rt (_n u)) lines
  | Raise e => e = ValueError ∧ ¬ Forall (well_formed_line rt (_n u)) lines
  end.
Proof.
  revert acc u. induction lines as [|line lines IH]; intros acc u.
  { simpl. constructor. }
  cbn [read_relations_loop].
  destruct (Py.startswith Py.hash line) eqn:Hs.
  { specialize (IH acc u). destruct (read_relations_loop rt lines acc u).
    - constructor; [by left|done].
    - destruct IH as [-> Hn]. split; [done|]. intros H. apply Hn.
      by apply Forall_cons in H as [_ ?]. }
  destruct (parse_line line) as [rel|] eqn:Hp.
  2:{ split; [done|]. intros H. apply Forall_cons in H as [[?|(? & ? & ? & _)] _];
        congruence. }
  pose proof (is_weak_rel_result rt u rel) as Hw.
  assert (Hwf : (∃ j, py_int rt (nalias_num rel) = Some j
                 ∧ (j < _n u ∨ is_Some (py_float rt (talias_num rel))))
                → well_formed_line rt (_n u) line).
  { intros (j & ? & ?). right. by exists rel, j. }
  assert (Hstep : ∀ acc' u', _n u' = _n u →
            match read_relations_loop rt lines acc' u' with
            | Ok _ => Forall (well_formed_line rt (_n u)) lines
            | Raise e => e = ValueError ∧ ¬ Forall (well_formed_line rt (_n u)) lines
            end).
  { intros acc' u' E. specialize (IH acc' u'). by rewrite E in IH. }
  destruct (is_weak_rel rt u rel) as [[]|e].
  - specialize (Hstep acc u eq_refl).
    destruct (read_relations_loop rt lines acc u).
    + constructor; auto.
    + destruct Hstep as [-> Hn]. split; [done|]. intros H. apply Hn.
      by apply Forall_cons in H as [_ ?].
  - destruct (is_blacklisted_rel u rel).
    + specialize (Hstep acc u eq_refl).
      destruct (read_relations_loop rt lines acc u).
      * constructor; auto.
      * destruct Hstep as [-> Hn]. split; [done|]. intros H. apply Hn.
        by apply Forall_cons in H as [_ ?].
    + match goal with |- context [read_relations_loop rt lines ?a ?v] =>
        specialize (Hstep a v eq_refl);
        destruct (read_relations_loop rt lines a v) end.
      * constructor; auto.
      * destruct Hstep as [-> Hn]. split; [done|]. intros H. apply Hn.
        by apply Forall_cons in H as [_ ?].
  - destruct Hw as [-> Hn]. split; [done|]. intros H.
    apply Forall_cons in H as [[?|(rel' & j & Hp' & Hj & Hf)] _]; [congruence|].
    apply Hn. exists j. assert (rel' = rel) as -> by congruence. done.
Qed.

(** C7. For a file that opens, the load returns exactly when every line
    is a comment or splits into the seven fields of a relation whose counts
    convert: a relation whose joint count is below [n], whose ratio
    [talias_num] is below [t], or with [t1] or [t2] among the platform tags
    of the taxonomy is passed over and raises nothing. The working set the
    load produces holds exactly the relations parsed from the lines that are
    not comments, less those three kinds. *)
Theorem read_relations_filters (rt : Runtime) (fs : FileSystem)
    (filepath : string) (lines : list string)
    (tax : gmap string Taxonomy.Tag) (tr ex : gmap string (list string))
    (n : Z) (t : Q) :
  open fs filepath = Ok lines →
  ((∃ u, init_file rt fs filepath tax tr ex n t = Ok u)
     ↔ Forall (well_formed_line rt n) lines)
  ∧ (∀ u, init_file rt fs filepath tax tr ex n t = Ok u →
      ∀ rel, rel ∈ rel_set u ↔
        (∃ line, line ∈ lines ∧ Py.startswith Py.hash line = false
                 ∧ parse_line line = Some rel)
        ∧ (∃ j, py_int rt (nalias_num rel) = Some j ∧ ¬ (j < n))
        ∧ (∃ r, py_float rt (talias_num rel) = Some r ∧ ¬ (r < t)%Q)
        ∧ t1 rel ∉ Taxonomy.platform_tags tax
        ∧ t2 rel ∉ Taxonomy.platform_tags tax).
Proof.
  intros Hfs. unfold init_file. rewrite Hfs. unfold init, read_relations.
  match goal with |- context [read_relations_loop rt lines ∅ ?v] =>
    pose proof (read_relations_loop_result rt lines ∅ v) as Hres;
    destruct (read_relations_loop rt lines ∅ v) as [[rs u']|e] eqn:E
  end.
  2:{ destruct Hres as [_ Hn]. split; [|done]. split; [by intros [? ?]|done]. }
  split; [split; [done|by eexists]|].
  intros u [= <-] rel. apply read_relations_loop_spec in E as [-> _]. simpl.
  rewrite union_empty_r_L, elem_of_list_to_set, list_elem_of_omap.
  split.
  - intros (line & Hin & Hk). apply kept_Some in Hk as (Hc & Hp & Hw & Hb).
    apply is_weak_rel_false in Hw as [Hj Hr]. simpl in Hj, Hr.
    apply orb_false_iff in Hb as [Hb1 Hb2].
    apply bool_decide_eq_false in Hb1, Hb2. simpl in Hb1, Hb2.
    split; [by exists line|]. done.
  - intros ((line & Hin & Hc & Hp) & Hj & Hr & Hb1 & Hb2).
    exists line. split; [done|]. apply kept_Some. repeat split; try done.
    + by apply is_weak_rel_false.
    + apply orb_false_iff. split; by apply bool_decide_eq_false.
Qed.

(** ** The occurrence counts *)

Lemma last_count_None (tok : string) (rels : list Relation) :
  last_count tok rels = None ↔ ∀ rel, rel ∈ rels → t1 rel ≠ tok ∧ t2 rel ≠ tok.
Proof.
  induction rels as [|rel rels IH]; simpl.
  - split; [|done]. intros _ rel Hin. by apply elem_of_nil in Hin.
  - destruct (last_count tok rels) as [c|].
    + split; [done|]. intros H. assert (Some c = None) as [=].
      apply IH. intros r Hr. apply H. by right.
    + destruct IH as [IH _]. specialize (IH eq_refl).
      destruct (decide (t2 rel = tok)) as [E2|E2].
      { split; [done|]. intros Hall. destruct (Hall rel) as [_ ?]; [by left|done]. }
      destruct (decide (t1 rel = tok)) as [E1|E1].
      { split; [done|]. intros Hall. destruct (Hall rel) as [? _]; [by left|done]. }
      split; [|done].
      intros _ r Hr. apply elem_of_cons in Hr as [->|Hr]; [done|by apply IH].
Qed.

Lemma foldl_record_counts (rels : list Relation) (m : gmap string string)
    (tok : string) :
  foldl record_counts m rels !! tok =
    match last_count tok rels with
    | Some c => Some c
    | None => m !! tok
    end.
Proof.
  revert m. induction rels as [|rel rels IH]; intros m; simpl; [done|].
  rewrite IH. destruct (last_count tok rels); [done|].
  unfold record_counts. repeat case_decide; simplify_map_eq; done.
Qed.

(** C10, as amended. After a successful load, [src_map] holds for each token
    of a relation that was not dropped the count given by the last such
    relation of the file that names the token (later lines overwrite earlier
    ones), and nothing for any other token. *)
Theorem src_map_last_count (rt : Runtime) (lines : list string)
    (tax : gmap string Taxonomy.Tag) (tr ex : gmap string (list string))
    (n : Z) (t : Q) (u : Update) :
  init rt lines tax tr ex n t = Ok u →
  (∀ tok, src_map u !! tok = last_count tok (omap (kept rt u) lines))
  ∧ (∀ tok, is_Some (src_map u !! tok) ↔
            ∃ rel, rel ∈ rel_set u ∧ (t1 rel = tok ∨ t2 rel = tok)).
Proof.
  unfold init, read_relations.
  destruct (read_relations_loop _ _ _ _) as [[rs u']|e] eqn:E; [|done].
  intros [= <-]. apply read_relations_loop_spec in E as [-> ->]. simpl.
  match goal with |- context [omap ?f lines] => set (ks := omap f lines) end.
  assert (Hlk : ∀ tok, foldl record_counts ∅ ks !! tok = last_count tok ks).
  { intros tok. rewrite foldl_record_counts, lookup_empty.
    by destruct (last_count tok ks). }
  split; [exact Hlk|].
  intros tok. rewrite Hlk, <- not_eq_None_Some, last_count_None.
  split.
  - intros H. apply dec_stable. intros Hn. apply H. intros rel Hrel.
    split; intros Ht; apply Hn; exists rel; (split; [set_solver|tauto]).
  - intros (rel & Hin & Ht) H. apply elem_of_union in Hin as [Hin|Hin]; [|set_solver].
    apply elem_of_list_to_set, H in Hin. tauto.
Qed.

(** ** Expansion rules *)

Lemma overlaps_sym (tax : gmap string Taxonomy.Tag) (a b : string) :
  Taxonomy.overlaps tax a b = Taxonomy.overlaps tax b a.
Proof. unfold Taxonomy.overlaps. apply orb_comm. Qed.

Lemma pairwise_nonoverlap_snoc tax (out : list string) (x : string) :
  pairwise_nonoverlap tax out →
  Forall (λ e, Taxonomy.overlaps tax x e = false) out →
  pairwise_nonoverlap tax (out ++ [x]).
Proof.
  intros Hout Hx i j a b Hi Hj Hne.
  rewrite Forall_forall in Hx.
  apply lookup_app_Some in Hi as [Hi|[Hil Hi]], Hj as [Hj|[Hjl Hj]].
  - by apply (Hout i j).
  - apply list_lookup_singleton_Some in Hj as [_ <-].
    rewrite overlaps_sym. apply Hx. by eapply list_elem_of_lookup_2.
  - apply list_lookup_singleton_Some in Hi as [_ <-].
    apply Hx. by eapply list_elem_of_lookup_2.
  - apply list_lookup_singleton_Some in Hi as [Hi _], Hj as [Hj _]. lia.
Qed.

Lemma remove_overlaps_go_pairwise tax (l out : list string) :
  pairwise_nonoverlap tax out →
  pairwise_nonoverlap tax (Taxonomy.remove_overlaps_go tax l out).
Proof.
  revert out. induction l as [|x l IH]; intros out Hout; simpl; [done|].
  destruct (existsb _ out) eqn:E; [by apply IH|].
  apply IH, pairwise_nonoverlap_snoc; [done|].
  apply Forall_forall. intros e He.
  destruct (Taxonomy.overlaps tax x e) eqn:O; [|done].
  assert (existsb (λ e0, (x =? e0)%string || Taxonomy.overlaps tax x e0) out
          = true) as E'; [|congruence].
  apply existsb_exists. exists e. split; [by apply list_elem_of_In|].
  rewrite O. apply orb_true_r.
Qed.

(** What [remove_overlaps] returns has no two overlapping tags. *)
Lemma remove_overlaps_pairwise tax (l : list string) :
  pairwise_nonoverlap tax (Taxonomy.remove_overlaps tax l).
Proof.
  apply remove_overlaps_go_pairwise. intros i j a b Hi.
  by rewrite lookup_nil in Hi.
Qed.

(** C3, as amended. After [add_expansion src dst_l] the destinations
    committed for the rule's source are pairwise non-overlapping whenever
    [src] already had expansion destinations (the merged list then goes
    through [remove_overlaps]) or [dst_l] itself is pairwise non-overlapping,
    as the one-destination lists passed by [find_expansions] are. *)
Theorem add_expansion_nonoverlap (u : Update) (src : string)
    (dst_l : list string) :
  Expansion.get_dst (_out_expansion u) src ≠ []
  ∨ pairwise_nonoverlap (_out_taxonomy u) dst_l →
  expansion_nonoverlap_after u src dst_l.
Proof.
  unfold expansion_nonoverlap_after, add_expansion, rule_source.
  intros H. cbv zeta.
  destruct (Expansion.get_dst (_out_expansion u) src) as [|d ds] eqn:E; simpl.
  - destruct H as [H|H]; [done|].
    unfold Expansion.get_dst, Expansion.add_rule. by rewrite lookup_insert_eq.
  - unfold Expansion.get_dst, Expansion.add_rule. rewrite lookup_insert_eq.
    simpl. apply remove_overlaps_pairwise.
Qed.

(** The amended statement at a source that has a rule: merging [os] into the
    destinations [[windows]] of [upatre]. *)
Lemma add_expansion_nonoverlap_witness :
  expansion_nonoverlap_after
    (Ex.object Ex.tax_os ∅ (<["upatre" := ["windows"]]> ∅) ∅) "upatre" ["os"].
Proof.
  apply (add_expansion_nonoverlap
           (Ex.object Ex.tax_os ∅ (<["upatre" := ["windows"]]> ∅) ∅)
           "upatre" ["os"]).
  left. vm_compute. discriminate.
Defined.

(** C3 fails as stated: for a source without a rule the given list is
    committed as it is, here [os] together with its descendant [windows]. *)
Lemma add_expansion_overlap_counterexample :
  ¬ expansion_nonoverlap_after (Ex.object Ex.tax_os ∅ ∅ ∅) "upatre"
      ["os"; "windows"].
Proof.
  intros H. specialize (H 0%nat 1%nat "os" "windows").
  assert (Taxonomy.overlaps Ex.tax_os "os" "windows" = true) as E
    by (vm_compute; reflexivity).
  change (_out_taxonomy _) with Ex.tax_os in H.
  rewrite E in H. discriminate H; [vm_compute; reflexivity ..|lia].
Qed.

(** ** Worked examples for the occurrence counts *)

(** C10 fails as stated: the count of the later line replaces the larger
    count of the earlier one. *)
Lemma src_map_not_maximum_counterexample :
  ∃ u, init (Concrete.runtime None) Ex.lines_two_counts ∅ ∅ ∅ 20 (94 # 100) = Ok u
       ∧ Ex.rel_a_b ∈ rel_set u
       ∧ src_map u !! "a" = Some "100"
       ∧ ¬ src_map_holds_maximum (Concrete.runtime None) u.
Proof.
  eexists. split; [vm_compute; reflexivity|].
  assert (Hin : Ex.rel_a_b ∈ rel_set (set_rel_set
            (list_to_set (omap (kept (Concrete.runtime None) (Ex.object ∅ ∅ ∅ ∅))
                            Ex.lines_two_counts)) (Ex.object ∅ ∅ ∅ ∅))).
  { simpl. apply elem_of_list_to_set. vm_compute. left. }
  split; [exact Hin|]. split; [vm_compute; reflexivity|].
  intros H. destruct (H Ex.rel_a_b "a" "100" Hin) as [H1 _]; [vm_compute; reflexivity|].
  destruct (H1 eq_refl) as (x & m & Hx & Hm & Hle).
  vm_compute in Hx, Hm. injection Hx as <-. injection Hm as <-. lia.
Qed.

(** The witness of the amended statement on the same file. *)
Lemma src_map_last_count_witness :
  ∃ u, init (Concrete.runtime None) Ex.lines_two_counts ∅ ∅ ∅ 20 (94 # 100) = Ok u
       ∧ (∀ tok, src_map u !! tok =
                 last_count tok (omap (kept (Concrete.runtime None) u)
                                   Ex.lines_two_counts)).
Proof.
  eexists. split; [vm_compute; reflexivity|].
  eapply (src_map_last_count (Concrete.runtime None) Ex.lines_two_counts
            ∅ ∅ ∅ 20 (94 # 100)).
  vm_compute; reflexivity.
Defined.

(** ** Exceptions of the classifier *)

Section Unbound.

Variable rt : Runtime.
Hypothesis args_unbound : g_args rt = None.

(** With the global [args] unbound, a call of [process_relation] raises:
    [ValueError] if [tinv_alias_num] is no number, [NameError] otherwise. *)
Lemma process_relation_unbound (rel : Relation) (u : Update) :
  process_relation rt rel u = Raise NameError
  ∨ process_relation rt rel u = Raise ValueError.
Proof.
  unfold process_relation, Taxonomy.get_info. rewrite args_unbound.
  destruct (py_float rt (tinv_alias_num rel)); auto.
Qed.

Lemma run_inner_unbound (l : list Relation) cnt ns (u : Update) (rel : Relation) :
  rel ∈ l → is_known_rel u rel = false →
  ∃ e, run_inner rt l cnt ns u = Raise e.
Proof.
  induction l as [|r l IH]; intros Hin Hk; [by apply elem_of_nil in Hin|].
  simpl. destruct (is_known_rel u r) eqn:Hr.
  - apply elem_of_cons in Hin as [->|Hin]; [congruence|by apply IH].
  - destruct (process_relation_unbound r u) as [-> | ->]; eauto.
Qed.

End Unbound.

(** C1, evaluated on the code. The module never binds the global [args]
    that [process_relation] reads. In that namespace [run] raises as soon as
    the working set holds a relation that is not already known: the
    exception leaves the loop and nothing is classified. *)
Theorem run_raises_when_args_unbound (rt : Runtime) (u : Update)
    (rel : Relation) :
  g_args rt = None →
  rel ∈ rel_set u →
  is_known_rel u rel = false →
  ∃ e, run rt u = Some (Raise e).
Proof.
  intros Hargs Hin Hk. unfold run.
  destruct (size (rel_set u)) as [|fuel] eqn:Hsize.
  { apply size_empty_iff in Hsize. set_solver. }
  simpl. destruct (decide (rel_set u = ∅)) as [He|_]; [set_solver|].
  unfold run_pass.
  destruct (run_inner_unbound rt Hargs (set_iter rt (rel_set u)) 0%nat ∅
              (emit (LogPass 0) u) rel) as [e ->]; [|done|by exists e].
  by apply set_iter_elem.
Qed.

(** The file and taxonomy of the alias scenario, run as [main] runs them. *)
Lemma run_raises_when_args_unbound_witness :
  ∃ e, run (Concrete.runtime None) Ex.object_upatre = Some (Raise e).
Proof.
  apply (run_raises_when_args_unbound (Concrete.runtime None) Ex.object_upatre
           Ex.rel_upatre).
  - reflexivity.
  - vm_compute. reflexivity.
  - vm_compute. reflexivity.
Defined.

Example object_upatre_is_loaded :
  init (Concrete.runtime None) Ex.lines_upatre Ex.tax_upatre ∅ ∅ 20 (94 # 100)
  = Ok Ex.object_upatre.
Proof. vm_compute. reflexivity. Qed.

Example main_raises_NameError :
  run (Concrete.runtime None) Ex.object_upatre = Some (Raise NameError).
Proof. vm_compute. reflexivity. Qed.

(** ** The decision table *)

Lemma process_relation_cases (rt : Runtime) (rel : Relation) (u : Update)
    (z : Z) (u' : Update) :
  process_relation rt rel u = Ok (z, u') →
  classified rel
    (emit (LogProcessing (Taxonomy.get_path (_out_taxonomy u) (t1 rel))
                         (Taxonomy.get_path (_out_taxonomy u) (t2 rel))) u)
    z u'.
Proof.
  unfold process_relation, Taxonomy.get_info.
  destruct (py_float rt (tinv_alias_num rel)); [|done].
  destruct (g_args rt); [|done].
  repeat match goal with
         | |- context [if ?b then _ else _] => destruct b
         end;
  try (destruct (add_alias _ _ _ _) eqn:E; [|done]);
  intros [= <- <-];
  try (by econstructor; eauto).
  - apply (classified_tag _ _ 0 "FAM"). by left.
  - apply (classified_tag _ _ 0 "FAM"). by left.
Qed.

(** C2, as amended. With the threshold global bound, classifying the relation
    of [upatre] (family) and [UNK_A] (unknown), strong in both directions
    and neither tag an alias yet, merges in the direction [t1] to [t2]:
    [upatre] becomes a translation source whose destination is [UNK_A],
    [upatre] leaves the taxonomy and [UNK_A] enters it, as [FAM:UNK_A] if it
    was not an entry. *)
Theorem alias_upatre (rt : Runtime) (u : Update) (rel : Relation) (a : Args) (r : Q) :
  t1 rel = "upatre" → t2 rel = "UNK_A" →
  Taxonomy.get_info (_out_taxonomy u) "upatre" = ("FAM:upatre", "FAM") →
  Taxonomy.get_category (_out_taxonomy u) "UNK_A" = "UNK" →
  Translation.get_dst (_out_translation u) "upatre" = [] →
  Translation.get_dst (_out_translation u) "UNK_A" = [] →
  py_float rt (tinv_alias_num rel) = Some r →
  g_args rt = Some a →
  (args_t a <= r)%Q →
  ∃ u', process_relation rt rel u = Ok (1, u')
     ∧ Translation.get_dst (_out_translation u') "upatre" = ["UNK_A"]
     ∧ Translation.get_dst (_out_translation u') "UNK_A" = []
     ∧ Taxonomy.is_tag (_out_taxonomy u') "upatre" = false
     ∧ Taxonomy.is_tag (_out_taxonomy u') "UNK_A" = true
     ∧ (Taxonomy.is_tag (_out_taxonomy u) "UNK_A" = false →
        Taxonomy.get_path (_out_taxonomy u') "UNK_A" = "FAM:UNK_A")
     ∧ _out_expansion u' = _out_expansion u.
Proof.
  intros Ht1 Ht2 Hinfo Hcat Hd1 Hd2 Hfloat Hargs Hle.
  unfold process_relation. rewrite Ht1, Ht2, Hinfo.
  unfold Taxonomy.get_info at 1. rewrite Hcat, Hfloat, Hargs.
  apply Qle_bool_iff in Hle. rewrite Hle.
  change (negb ("FAM" =? "UNK")%string && ("UNK" =? "UNK")%string) with true.
  cbv iota. unfold add_alias. cbn [_out_translation emit _out_taxonomy].
  rewrite Hd1, Hd2. eexists. split; [reflexivity|].
  cbn [_out_translation set_translation set_taxonomy _out_taxonomy _out_expansion].
  unfold Translation.get_dst, Translation.add_rule, Taxonomy.is_tag,
    Taxonomy.get_path, Taxonomy.remove_tag, Taxonomy.add_tag.
  change (Taxonomy.name_of (prefix_of_path "FAM:upatre" +:+ ":" +:+ "UNK_A"))
    with "UNK_A".
  change (prefix_of_path "FAM:upatre" +:+ ":" +:+ "UNK_A") with "FAM:UNK_A".
  rewrite lookup_insert_eq, lookup_insert_ne by done.
  unfold Translation.get_dst in Hd2. rewrite Hd2.
  destruct (_out_taxonomy u !! "UNK_A") as [e|] eqn:E.
  - rewrite lookup_delete_eq, lookup_delete_ne, E by done.
    repeat split; done.
  - rewrite lookup_delete_eq, lookup_delete_ne, lookup_insert_eq by done.
    repeat split; done.
Qed.

Lemma alias_upatre_witness :
  ∃ u', process_relation (Concrete.runtime (Some Concrete.args94))
          Ex.rel_upatre Ex.object_upatre = Ok (1, u')
     ∧ Translation.get_dst (_out_translation u') "upatre" = ["UNK_A"]
     ∧ Translation.get_dst (_out_translation u') "UNK_A" = []
     ∧ Taxonomy.is_tag (_out_taxonomy u') "upatre" = false
     ∧ Taxonomy.is_tag (_out_taxonomy u') "UNK_A" = true
     ∧ (Taxonomy.is_tag (_out_taxonomy Ex.object_upatre) "UNK_A" = false →
        Taxonomy.get_path (_out_taxonomy u') "UNK_A" = "FAM:UNK_A")
     ∧ _out_expansion u' = _out_expansion Ex.object_upatre.
Proof.
  apply (alias_upatre (Concrete.runtime (Some Concrete.args94))
           Ex.object_upatre Ex.rel_upatre Concrete.args94 (96 # 100));
    vm_compute; congruence.
Defined.

(** C2 fails as stated. In the namespace of the module the classification
    raises and aliases nothing; with the threshold global bound it aliases
    [upatre] to [UNK_A], not [UNK_A] to [upatre]: [UNK_A] has no translation
    rule and is a taxonomy entry afterwards. *)
Lemma alias_direction_counterexample :
  ¬ alias_into_upatre (Concrete.runtime None) Ex.object_upatre Ex.rel_upatre
  ∧ ¬ alias_into_upatre (Concrete.runtime (Some Concrete.args94))
        Ex.object_upatre Ex.rel_upatre
  ∧ ∃ u', process_relation (Concrete.runtime (Some Concrete.args94))
            Ex.rel_upatre Ex.object_upatre = Ok (1, u')
       ∧ Translation.get_dst (_out_translation u') "UNK_A" = []
       ∧ Translation.get_dst (_out_translation u') "upatre" = ["UNK_A"]
       ∧ Taxonomy.is_tag (_out_taxonomy u') "UNK_A" = true
       ∧ Taxonomy.is_tag (_out_taxonomy u') "upatre" = false.
Proof.
  split; [|split].
  - intros (z & u' & H & _). vm_compute in H. discriminate H.
  - intros (z & u' & H & Hd & _). vm_compute in H.
    injection H as <- <-. vm_compute in Hd. discriminate Hd.
  - eexists. split; [vm_compute; reflexivity|]. vm_compute. done.
Qed.

(** ** Contradicting categories *)

(** With the threshold global bound, a relation that is strong in both
    directions between tags of two different categories, neither [UNK],
    makes [process_relation] log the warning, leave the object otherwise as
    it is and return [-1], which the loop of [run] counts without keeping the
    relation. *)
Lemma contradiction_when_args_bound (rt : Runtime) (u : Update)
    (rel : Relation) (a : Args) (r : Q) :
  g_args rt = Some a →
  py_float rt (tinv_alias_num rel) = Some r →
  (args_t a <= r)%Q →
  Taxonomy.get_category (_out_taxonomy u) (t1 rel) ≠ "UNK" →
  Taxonomy.get_category (_out_taxonomy u) (t2 rel) ≠ "UNK" →
  Taxonomy.get_category (_out_taxonomy u) (t1 rel)
    ≠ Taxonomy.get_category (_out_taxonomy u) (t2 rel) →
  let p1 := Taxonomy.get_path (_out_taxonomy u) (t1 rel) in
  let p2 := Taxonomy.get_path (_out_taxonomy u) (t2 rel) in
  process_relation rt rel u
  = Ok (-1, emit (LogDifferentCategories p1 p2) (emit (LogProcessing p1 p2) u)).
Proof.
  intros Hargs Hfloat Hle H1 H2 H12. unfold process_relation, Taxonomy.get_info.
  rewrite Hfloat, Hargs. apply Qle_bool_iff in Hle. rewrite Hle.
  apply String.eqb_neq in H1, H2, H12. by rewrite H1, H2, H12.
Qed.

(** C8, evaluated on the code. In the namespace of the module the
    classification of the contradicting relation raises [NameError] before
    any category is compared: no warning is logged, and the exception ends
    [run]. *)
Theorem contradiction_raises_NameError :
  init (Concrete.runtime None) Ex.lines_contradiction Ex.tax_contradiction
    ∅ ∅ 20 (94 # 100) = Ok Ex.object_contradiction
  ∧ is_known_rel Ex.object_contradiction Ex.rel_contradiction = false
  ∧ process_relation (Concrete.runtime None) Ex.rel_contradiction
      Ex.object_contradiction = Raise NameError
  ∧ run (Concrete.runtime None) Ex.object_contradiction = Some (Raise NameError).
Proof. repeat split; vm_compute; reflexivity. Qed.

(** The same relation with the threshold global bound. *)
Example contradiction_dropped_when_args_bound :
  ∃ u', run (Concrete.runtime (Some Concrete.args94)) Ex.object_contradiction
        = Some (Ok u')
      ∧ stores u' = stores Ex.object_contradiction
      ∧ rel_set u' = ∅
      ∧ logged u' = [LogPass 0; LogProcessing "FAM:zbot" "CLASS:downloader";
                     LogDifferentCategories "FAM:zbot" "CLASS:downloader";
                     LogFindingExpansions].
Proof. eexists. split; [vm_compute; reflexivity|]. vm_compute. done. Qed.

(** ** Other exceptions of the classifier *)

(** A seventh field that is no number passes the load, which converts only
    the fifth and sixth, and raises in [process_relation]. *)
Example process_relation_raises_ValueError :
  process_relation (Concrete.runtime (Some Concrete.args94))
    {| t1 := "a"; t2 := "b"; t1_num := "1"; t2_num := "1"; nalias_num := "30";
       talias_num := "0.99"; tinv_alias_num := "n/a" |}
    (Ex.object ∅ ∅ ∅ ∅) = Raise ValueError.
Proof. vm_compute. reflexivity. Qed.

(** [add_alias] compares the integer default of [src_map.get(e, 0)] with the
    recorded string when a destination of the source is in no relation. *)
Example add_alias_raises_TypeError :
  is_known_rel Ex.object_zeus Ex.rel_zeus = false
  ∧ process_relation (Concrete.runtime (Some Concrete.args94)) Ex.rel_zeus
      Ex.object_zeus = Raise TypeError.
Proof. split; vm_compute; reflexivity. Qed.

(** The counts are compared as the strings they were read as. *)
Example add_alias_compares_text :
  add_alias_target (<["x" := "9"]> ∅) "10" ["x"] "y" = Ok "x".
Proof. vm_compute. reflexivity. Qed.

(** ** What classification leaves untouched *)

Lemma count_passes_app l1 l2 :
  count_passes (l1 ++ l2) = (count_passes l1 + count_passes l2)%nat.
Proof. induction l1 as [|[] l1 IH]; simpl; lia. Qed.

Lemma passes_emit r u :
  passes (emit r u) = (passes u + count_passes [r])%nat.
Proof. unfold passes. simpl. apply count_passes_app. Qed.

Lemma add_alias_inv src dst prefix u u' :
  add_alias src dst prefix u = Ok u' →
  ∃ target_l,
    target_l ≠ []
    ∧ u' = set_translation
             (Translation.add_rule (_out_translation u) src target_l true)
             (set_taxonomy
                (Taxonomy.remove_tag
                   (match Translation.get_dst (_out_translation u) dst with
                    | [] => Taxonomy.add_tag (_out_taxonomy u) (prefix +:+ ":" +:+ dst)
                    | _ :: _ => _out_taxonomy u
                    end) src) u).
Proof.
  unfold add_alias.
  match goal with |- context [match ?c with Ok _ => _ | Raise _ => _ end] =>
    destruct c as [target|] end; [|done].
  destruct (Translation.get_dst (_out_translation u) dst) as [|d ds];
    intros [= <-]; eexists; (split; [|reflexivity]); done.
Qed.

Lemma add_alias_frame src dst prefix u u' :
  add_alias src dst prefix u = Ok u' →
  logged u' = logged u ∧ frame u' = frame u ∧ _out_expansion u' = _out_expansion u.
Proof. intros (l & _ & ->)%add_alias_inv. done. Qed.

Lemma add_tag_frame name path u :
  logged (add_tag name path u) = logged u
  ∧ frame (add_tag name path u) = frame u
  ∧ _out_expansion (add_tag name path u) = _out_expansion u
  ∧ _out_translation (add_tag name path u) = _out_translation u.
Proof. unfold add_tag. by destruct (Translation.get_dst _ _). Qed.

Lemma classified_frame rel u0 z u' :
  classified rel u0 z u' →
  passes u' = passes u0 ∧ frame u' = frame u0
  ∧ (z = 1 ∨ z = 0 ∨ z = -1)
  ∧ (z = -1 → stores u' = stores u0 ∧ ∃ p1 p2, logged u' = logged u0 ++ [LogDifferentCategories p1 p2]).
Proof.
  intros [prefix u1 H|z' p Hz| |p1 p2].
  - apply add_alias_frame in H as (Hl & Hf & _). unfold passes. rewrite Hl.
    split; [done|]. split; [done|]. split; [lia|]. intros [=].
  - destruct (add_tag_frame (t1 rel) (p +:+ ":" +:+ t1 rel) u0) as (Hl & Hf & _).
    unfold passes. rewrite Hl.
    split; [done|]. split; [done|]. split; [lia|]. lia.
  - split; [done|]. split; [done|]. split; [lia|]. intros [=].
  - rewrite passes_emit. simpl.
    split; [lia|]. split; [done|]. split; [lia|]. intros _. split; [done|eauto].
Qed.

Lemma process_relation_frame rt rel u z u' :
  process_relation rt rel u = Ok (z, u') →
  passes u' = passes u ∧ frame u' = frame u ∧ (z = 1 ∨ z = 0 ∨ z = -1)
  ∧ (z = -1 → stores u' = stores u).
Proof.
  intros H%process_relation_cases%classified_frame.
  destruct H as (Hp & Hf & Hz & Hm). rewrite passes_emit in Hp. simpl in Hp, Hf.
  repeat split; auto; try lia. intros Hz1. by destruct (Hm Hz1) as [-> _].
Qed.

Lemma run_inner_passes rt l cnt ns u cnt' ns' u' :
  run_inner rt l cnt ns u = Ok (cnt', ns', u') →
  passes u' = passes u ∧ frame u' = frame u.
Proof.
  revert cnt ns u. induction l as [|rel l IH]; intros cnt ns u; simpl.
  - by intros [= <- <- <-].
  - destruct (is_known_rel u rel); [apply IH|].
    destruct (process_relation rt rel u) as [[z u1]|e] eqn:E; [|done].
    apply process_relation_frame in E as (Hp & Hf & _).
    destruct (z =? 0); intros H; apply IH in H as [-> ->]; done.
Qed.

Lemma run_pass_passes rt k u cnt u' :
  run_pass rt k u = Ok (cnt, u') → passes u' = S (passes u).
Proof.
  unfold run_pass.
  destruct (run_inner _ _ _ _ _) as [[[c ns] u1]|e] eqn:E; [|done].
  intros [= <- <-]. apply run_inner_passes in E as [E _].
  rewrite passes_emit in E. simpl in E. unfold passes in *. simpl. lia.
Qed.

Lemma run_loop_total rt fuel k u :
  (size (rel_set u) ≤ fuel)%nat →
  ∃ r, run_loop rt fuel k u = Some r
       ∧ ∀ u', r = Ok u' → (passes u' ≤ passes u + size (rel_set u))%nat.
Proof.
  revert k u. induction fuel as [|fuel IH]; intros k u Hsize; simpl.
  - destruct (decide (rel_set u = ∅)) as [He|Hne].
    + eexists. split; [done|]. intros u' [= <-]. lia.
    + exfalso. apply Hne, leibniz_equiv, size_empty_iff. lia.
  - destruct (decide (rel_set u = ∅)) as [He|Hne].
    { eexists. split; [done|]. intros u' [= <-]. lia. }
    destruct (run_pass rt k u) as [[cnt u1]|e] eqn:E.
    2:{ eexists. split; [done|]. done. }
    pose proof (run_pass_passes _ _ _ _ _ E) as Hp.
    apply run_pass_bounds in E as [Hsub Hcnt].
    assert (size (rel_set u) ≠ 0)%nat as Hpos
      by (intros ?%size_empty_iff%leibniz_equiv; done).
    destruct (Nat.eqb_spec cnt 0) as [->|Hc].
    { eexists. split; [done|]. intros u' [= <-]. lia. }
    destruct (IH (S k) u1) as (r & -> & Hr); [lia|].
    eexists. split; [done|]. intros u' Hu'. specialize (Hr u' Hu'). lia.
Qed.

Lemma add_expansion_frame src dst_l u :
  logged (add_expansion src dst_l u) = logged u
  ∧ _out_taxonomy (add_expansion src dst_l u) = _out_taxonomy u
  ∧ _out_translation (add_expansion src dst_l u) = _out_translation u.
Proof. unfold add_expansion. by destruct (Expansion.get_dst _ _). Qed.

Lemma find_expansions_loop_frame l acc u :
  let r := find_expansions_loop l acc u in
  passes (snd r) = passes u
  ∧ _out_taxonomy (snd r) = _out_taxonomy u
  ∧ _out_translation (snd r) = _out_translation u.
Proof.
  revert acc u. induction l as [|rel l IH]; intros acc u; simpl; [done|].
  destruct (Translation.get_dst (_out_translation u) (t1 rel)).
  - destruct (is_expansion_rel _ rel).
    + destruct (IH (acc ++ [rel]) (add_expansion (t1 rel) [t2 rel]
          (emit (LogProcessing (Taxonomy.get_path (_out_taxonomy u) (t1 rel))
                   (Taxonomy.get_path (_out_taxonomy u) (t2 rel))) u)))
        as (-> & -> & ->).
      destruct (add_expansion_frame (t1 rel) [t2 rel]
          (emit (LogProcessing (Taxonomy.get_path (_out_taxonomy u) (t1 rel))
                   (Taxonomy.get_path (_out_taxonomy u) (t2 rel))) u))
        as (Hl & -> & ->).
      unfold passes. rewrite Hl. simpl. rewrite count_passes_app. simpl.
      split; [lia|done].
    + destruct (IH acc (emit (LogProcessing (Taxonomy.get_path (_out_taxonomy u) (t1 rel))
                   (Taxonomy.get_path (_out_taxonomy u) (t2 rel))) u))
        as (-> & -> & ->).
      rewrite passes_emit. simpl. split; [lia|done].
  - match goal with |- context [find_expansions_loop l acc ?v] =>
      destruct (IH acc v) as (-> & -> & ->) end.
    rewrite !passes_emit. simpl. split; [lia|done].
Qed.

Lemma find_expansions_frame rt u :
  passes (find_expansions rt u) = passes u
  ∧ _out_taxonomy (find_expansions rt u) = _out_taxonomy u
  ∧ _out_translation (find_expansions rt u) = _out_translation u.
Proof.
  unfold find_expansions.
  pose proof (find_expansions_loop_frame (set_iter rt (rel_set u)) [] u) as H.
  destruct (find_expansions_loop _ _ _) as [acc u']. exact H.
Qed.

(** C5, as amended. [run] terminates, with a result or an exception, and
    the loop makes at most as many passes as the working set has relations
    when it starts: every pass that is followed by another drops at least one
    relation. *)
Theorem run_terminates (rt : Runtime) (u : Update) :
  (∃ r, run rt u = Some r)
  ∧ (∀ u', run rt u = Some (Ok u') →
           (passes u' ≤ passes u + size (rel_set u))%nat).
Proof.
  unfold run.
  destruct (run_loop_total rt (size (rel_set u)) 0 u) as (r & -> & Hr); [done|].
  destruct r as [u1|e].
  - split; [by eexists|]. intros u' [= <-].
    destruct (find_expansions_frame rt (emit LogFindingExpansions u1)) as (-> & _).
    rewrite passes_emit. simpl. specialize (Hr u1 eq_refl). lia.
  - split; [by eexists|]. done.
Qed.

(** C5 fails as stated. None of the tags below is of category [UNK], and
    the loop makes two passes: the first aliases [citadel] to [zbot] and
    defers the relation of [banker], the second finds nothing to do. In the
    namespace of the module, a working set of one known relation takes one
    pass with no unknown tag. *)
Lemma passes_exceed_unk_tags_counterexample :
  initially_unk_tags Ex.object_families = ∅
  ∧ (∃ u', run (Concrete.runtime (Some Concrete.args94)) Ex.object_families
           = Some (Ok u') ∧ passes u' = 2%nat)
  ∧ ¬ passes_bounded_by_unk_tags (Concrete.runtime (Some Concrete.args94))
        Ex.object_families
  ∧ initially_unk_tags Ex.object_os = ∅
  ∧ ¬ passes_bounded_by_unk_tags (Concrete.runtime None) Ex.object_os.
Proof.
  assert (H1 : initially_unk_tags Ex.object_families = ∅)
    by (vm_compute; reflexivity).
  assert (H2 : initially_unk_tags Ex.object_os = ∅)
    by (vm_compute; reflexivity).
  split; [exact H1|]. split; [|split; [|split; [exact H2|]]].
  - eexists. split; [vm_compute; reflexivity|]. vm_compute. reflexivity.
  - intros H. unfold passes_bounded_by_unk_tags in H. rewrite H1 in H.
    eassert (Hrun : run (Concrete.runtime (Some Concrete.args94))
                      Ex.object_families = Some (Ok _))
      by (vm_compute; reflexivity).
    specialize (H _ Hrun). vm_compute in H. lia.
  - intros H. unfold passes_bounded_by_unk_tags in H. rewrite H2 in H.
    eassert (Hrun : run (Concrete.runtime None) Ex.object_os = Some (Ok _))
      by (vm_compute; reflexivity).
    specialize (H _ Hrun). vm_compute in H. lia.
Qed.

(** ** The passes of the loop *)





(** ** The category invariant *)

Lemma split_nonempty c s : Py.split c s ≠ [].
Proof.
  destruct s as [|a s]; simpl; [done|].
  destruct (Ascii.eqb a c); [done|]. by destruct (Py.split c s).
Qed.

Lemma split_app_sep c p t :
  Py.split c (p +:+ String c t) = Py.split c p ++ Py.split c t.
Proof.
  induction p as [|a p IH]; simpl.
  - by rewrite Ascii.eqb_refl.
  - destruct (Ascii.eqb a c); [by rewrite IH|].
    rewrite IH. pose proof (split_nonempty c p).
    by destruct (Py.split c p).
Qed.

Lemma split_colon_free t : colon_free t = true → Py.split Py.colon t = [t].
Proof.
  induction t as [|a t IH]; simpl; [done|].
  intros [Ha Ht]%andb_true_iff. apply negb_true_iff in Ha. rewrite Ha.
  by rewrite IH.
Qed.

Lemma name_of_suffix p t :
  colon_free t = true → Taxonomy.name_of (p +:+ ":" +:+ t) = t.
Proof.
  intros Ht. unfold Taxonomy.name_of, Taxonomy.components.
  change (":" +:+ t) with (String Py.colon t).
  rewrite split_app_sep, (split_colon_free t Ht). apply last_last.
Qed.

Lemma is_tag_add_tag tax p t :
  Taxonomy.is_tag (Taxonomy.add_tag tax p) t = true →
  t = Taxonomy.name_of p ∨ Taxonomy.is_tag tax t = true.
Proof.
  unfold Taxonomy.add_tag, Taxonomy.is_tag.
  destruct (tax !! Taxonomy.name_of p) eqn:E; [auto|].
  destruct (decide (t = Taxonomy.name_of p)) as [->|Hne]; [auto|].
  rewrite lookup_insert_ne by done. auto.
Qed.

Lemma add_tag_invariant name p u :
  colon_free name = true →
  category_invariant u →
  category_invariant (add_tag name (p +:+ ":" +:+ name) u).
Proof.
  intros Hn Hinv. unfold add_tag.
  destruct (Translation.get_dst (_out_translation u) name) eqn:E; [|done].
  intros t Ht. simpl in *. apply is_tag_add_tag in Ht as [->|Ht]; [|by apply Hinv].
  by rewrite name_of_suffix.
Qed.

Lemma add_alias_invariant src dst prefix u u' :
  colon_free dst = true →
  category_invariant u →
  add_alias src dst prefix u = Ok u' →
  category_invariant u'
  ∧ Taxonomy.is_tag (_out_taxonomy u') src = false
  ∧ Translation.get_dst (_out_translation u') src ≠ [].
Proof.
  intros Hd Hinv (target_l & Hne & ->)%add_alias_inv.
  unfold category_invariant.
  cbn [_out_taxonomy _out_translation set_translation set_taxonomy].
  unfold Translation.add_rule, Translation.get_dst, Taxonomy.remove_tag,
    Taxonomy.is_tag.
  split; [|split].
  - intros t Ht. apply bool_decide_eq_true in Ht.
    destruct (decide (t = src)) as [->|Hts].
    { rewrite lookup_delete_eq in Ht. by destruct Ht. }
    rewrite lookup_delete_ne in Ht by done. rewrite lookup_insert_ne by done.
    destruct (default [] (_out_translation u !! dst)) eqn:E.
    + assert (Taxonomy.is_tag (Taxonomy.add_tag (_out_taxonomy u)
                (prefix +:+ ":" +:+ dst)) t = true) as Ht'
        by by apply bool_decide_eq_true.
      apply is_tag_add_tag in Ht' as [->|Ht']; [|by apply Hinv].
      by rewrite name_of_suffix.
    + apply Hinv. by apply bool_decide_eq_true.
  - rewrite lookup_delete_eq. apply bool_decide_eq_false. by intros [? ?].
  - by rewrite lookup_insert_eq.
Qed.

Lemma add_tag_refuses name path u :
  Translation.get_dst (_out_translation u) name ≠ [] → add_tag name path u = u.
Proof. unfold add_tag. by destruct (Translation.get_dst _ _). Qed.

Lemma classified_invariant rel u0 z u' :
  colon_free (t1 rel) = true → colon_free (t2 rel) = true →
  category_invariant u0 → classified rel u0 z u' → category_invariant u'.
Proof.
  intros H1 H2 Hinv [prefix u1 H|z' p Hz| |p1 p2]; try done.
  - by apply (add_alias_invariant _ _ _ _ _ H2 Hinv) in H as [? _].
  - by apply add_tag_invariant.
Qed.

Lemma run_inner_invariant rt l cnt ns u cnt' ns' u' :
  (∀ rel, rel ∈ l → colon_free (t1 rel) = true ∧ colon_free (t2 rel) = true) →
  category_invariant u →
  run_inner rt l cnt ns u = Ok (cnt', ns', u') →
  category_invariant u'.
Proof.
  revert cnt ns u. induction l as [|rel l IH]; intros cnt ns u Hl Hinv; simpl.
  - by intros [= <- <- <-].
  - assert (Hl' : ∀ r, r ∈ l → colon_free (t1 r) = true ∧ colon_free (t2 r) = true)
      by (intros r Hr; apply Hl; by right).
    destruct (is_known_rel u rel); [by apply IH|].
    destruct (process_relation rt rel u) as [[z u1]|e] eqn:E; [|done].
    apply process_relation_cases in E.
    destruct (Hl rel) as [H1 H2]; [by left|].
    apply classified_invariant in E; [|done..].
    destruct (z =? 0); by apply IH.
Qed.

Lemma run_pass_invariant rt k u cnt u' :
  tokens_colon_free (rel_set u) → category_invariant u →
  run_pass rt k u = Ok (cnt, u') → category_invariant u'.
Proof.
  intros Htok Hinv. unfold run_pass.
  destruct (run_inner _ _ _ _ _) as [[[c ns] u1]|e] eqn:E; [|done].
  intros [= <- <-]. apply run_inner_invariant in E; [done| |done].
  intros rel Hrel. apply Htok. by apply set_iter_elem in Hrel.
Qed.

Lemma run_loop_invariant rt fuel k u u' :
  tokens_colon_free (rel_set u) → category_invariant u →
  run_loop rt fuel k u = Some (Ok u') → category_invariant u'.
Proof.
  revert k u. induction fuel as [|fuel IH]; intros k u Htok Hinv; simpl.
  - destruct (decide (rel_set u = ∅)); [|done]. by intros [= <-].
  - destruct (decide (rel_set u = ∅)); [by intros [= <-]|].
    destruct (run_pass rt k u) as [[cnt u1]|e] eqn:E; [|done].
    pose proof (run_pass_invariant _ _ _ _ _ Htok Hinv E) as Hinv1.
    apply run_pass_bounds in E as [Hsub _].
    destruct (cnt =? 0)%nat; [by intros [= <-]|].
    apply IH; [|done]. intros rel Hrel. apply Htok. set_solver.
Qed.

Lemma add_alias_target_elem sm cnt_max tr_dst target r :
  add_alias_target sm cnt_max tr_dst target = Ok r →
  r = target ∨ r ∈ tr_dst.
Proof.
  revert target. induction tr_dst as [|e l IH]; intros target; simpl.
  - intros [= <-]. by left.
  - destruct (sm !! e); [|done]. intros H. apply IH in H as [->|H].
    + destruct (String.ltb _ _); [right; by left|by left].
    + right. by right.
Qed.

Lemma add_alias_target_returns sm cnt_max tr_dst target :
  (∀ e, e ∈ tr_dst → is_Some (sm !! e)) →
  ∃ r, add_alias_target sm cnt_max tr_dst target = Ok r.
Proof.
  revert target. induction tr_dst as [|e l IH]; intros target H; simpl; [eauto|].
  destruct (H e) as [c ->]; [by left|]. apply IH. intros d Hd. apply H. by right.
Qed.

Lemma add_alias_recorded src dst prefix u :
  destinations_recorded u → is_Some (src_map u !! dst) →
  ∃ u', add_alias src dst prefix u = Ok u'
        ∧ destinations_recorded u' ∧ src_map u' = src_map u.
Proof.
  intros Hrec Hdst. unfold add_alias.
  assert (∃ target,
    match Translation.get_dst (_out_translation u) src with
    | [] => Ok dst
    | (_ :: _) as tr_dst =>
        match src_map u !! dst with
        | Some cnt_max => add_alias_target (src_map u) cnt_max tr_dst dst
        | None => Raise KeyError
        end
    end = Ok target ∧ is_Some (src_map u !! target)) as (target & -> & Ht).
  { destruct (Translation.get_dst (_out_translation u) src) as [|d ds] eqn:E.
    - by exists dst.
    - destruct Hdst as [c Hc]. rewrite Hc.
      destruct (add_alias_target_returns (src_map u) c (d :: ds) dst) as [r Hr].
      { intros e He. apply (Hrec src). by rewrite E. }
      exists r. split; [done|].
      apply add_alias_target_elem in Hr as [->|Hr]; [by eexists|].
      apply (Hrec src). by rewrite E. }
  destruct (Translation.get_dst (_out_translation u) dst) as [|d ds] eqn:E;
    (eexists; split; [reflexivity|]; split; [|done]);
    intros s x; cbn [_out_translation set_translation src_map set_taxonomy];
    unfold Translation.add_rule, Translation.get_dst, Rules.get_dst;
    (destruct (decide (s = src)) as [->|Hne];
     [rewrite lookup_insert_eq|rewrite lookup_insert_ne by done; apply (Hrec s)]);
    simpl.
  - intros ->%list_elem_of_singleton. done.
  - intros Hx. apply (Hrec dst). by rewrite E.
Qed.

Lemma process_relation_recorded rt rel u a :
  g_args rt = Some a →
  is_Some (py_float rt (tinv_alias_num rel)) →
  is_Some (src_map u !! t2 rel) →
  destinations_recorded u →
  ∃ z u', process_relation rt rel u = Ok (z, u')
          ∧ destinations_recorded u' ∧ src_map u' = src_map u.
Proof.
  intros Ha [r Hf] Ht2 Hrec. unfold process_relation, Taxonomy.get_info.
  rewrite Hf, Ha.
  set (u0 := emit _ u).
  assert (Halias : ∀ p, ∃ u', add_alias (t1 rel) (t2 rel) p u0 = Ok u'
            ∧ destinations_recorded u' ∧ src_map u' = src_map u).
  { intros p.
    destruct (add_alias_recorded (t1 rel) (t2 rel) p u0 Hrec Ht2)
      as (u' & ? & ? & ?). by exists u'. }
  assert (Htag : ∀ p, destinations_recorded (add_tag (t1 rel) p u0)
                      ∧ src_map (add_tag (t1 rel) p u0) = src_map u).
  { intros p. unfold add_tag. by destruct (Translation.get_dst _ _). }
  repeat match goal with
         | |- context [if ?b then _ else _] => destruct b
         end;
    try (match goal with |- context [add_alias _ _ ?p _] =>
           destruct (Halias p) as (u' & -> & ? & ?) end);
    eexists _, _; (split; [reflexivity|]); try done; apply Htag.
Qed.

Lemma run_inner_recorded rt l cnt ns u a :
  g_args rt = Some a →
  (∀ rel, rel ∈ l → is_Some (py_float rt (tinv_alias_num rel))
                    ∧ is_Some (src_map u !! t2 rel)) →
  destinations_recorded u →
  ∃ cnt' ns' u', run_inner rt l cnt ns u = Ok (cnt', ns', u')
                 ∧ destinations_recorded u' ∧ src_map u' = src_map u.
Proof.
  intros Ha. revert cnt ns u. induction l as [|rel l IH]; intros cnt ns u Hl Hrec.
  { simpl. eauto 6. }
  simpl.
  assert (Hl' : ∀ v, src_map v = src_map u → ∀ r, r ∈ l →
            is_Some (py_float rt (tinv_alias_num r)) ∧ is_Some (src_map v !! t2 r)).
  { intros v Hv r Hr. rewrite Hv. apply Hl. by right. }
  destruct (is_known_rel u rel).
  { apply IH; [|done]. by apply Hl'. }
  destruct (Hl rel) as [Hf Ht2]; [by left|].
  destruct (process_relation_recorded rt rel u a Ha Hf Ht2 Hrec)
    as (z & u1 & -> & Hrec1 & Hsm).
  destruct (z =? 0).
  - destruct (IH cnt ({[rel]} ∪ ns) u1 (Hl' u1 Hsm) Hrec1)
      as (c & n & v & -> & ? & Hv).
    eexists _, _, _. split; [reflexivity|]. split; [done|congruence].
  - destruct (IH (S cnt) ns u1 (Hl' u1 Hsm) Hrec1)
      as (c & n & v & -> & ? & Hv).
    eexists _, _, _. split; [reflexivity|]. split; [done|congruence].
Qed.

Lemma run_loop_recorded rt fuel k u a :
  g_args rt = Some a →
  relations_readable rt (src_map u) (rel_set u) →
  destinations_recorded u →
  ∀ e, run_loop rt fuel k u ≠ Some (Raise e).
Proof.
  intros Ha. revert k u. induction fuel as [|fuel IH]; intros k u Hread Hrec e; simpl.
  - by destruct (decide (rel_set u = ∅)).
  - destruct (decide (rel_set u = ∅)) as [|Hne]; [done|].
    destruct (run_pass rt k u) as [[cnt u1]|x] eqn:E.
    + pose proof (run_pass_bounds _ _ _ _ _ E) as [Hsub _].
      unfold run_pass in E.
      destruct (run_inner_recorded rt (set_iter rt (rel_set u)) 0%nat ∅
                  (emit (LogPass k) u) a Ha) as (c & ns & v & Hrun & Hrec1 & Hsm).
      { intros rel Hrel. apply set_iter_elem in Hrel. by apply Hread. }
      { done. }
      rewrite Hrun in E. injection E as <- <-.
      destruct (c =? 0)%nat; [done|]. apply IH; [|done].
      intros rel Hrel. cbn [src_map set_rel_set]. rewrite Hsm. apply Hread.
      by apply Hsub.
    + unfold run_pass in E.
      destruct (run_inner_recorded rt (set_iter rt (rel_set u)) 0%nat ∅
                  (emit (LogPass k) u) a Ha) as (c & ns & v & Hrun & _).
      { intros rel Hrel. apply set_iter_elem in Hrel. by apply Hread. }
      { done. }
      by rewrite Hrun in E.
Qed.

Lemma add_alias_returns src dst prefix u :
  Translation.get_dst (_out_translation u) src = []
  ∨ (is_Some (src_map u !! dst)
     ∧ ∀ e, e ∈ Translation.get_dst (_out_translation u) src →
            is_Some (src_map u !! e)) →
  ∃ u', add_alias src dst prefix u = Ok u'.
Proof.
  intros H. unfold add_alias.
  assert (∃ target,
    match Translation.get_dst (_out_translation u) src with
    | [] => Ok dst
    | (_ :: _) as tr_dst =>
        match src_map u !! dst with
        | Some cnt_max => add_alias_target (src_map u) cnt_max tr_dst dst
        | None => Raise KeyError
        end
    end = Ok target) as (target & ->).
  { destruct (Translation.get_dst (_out_translation u) src) as [|d ds] eqn:E.
    - by exists dst.
    - destruct H as [|[[c ->] Hall]]; [done|].
      by apply add_alias_target_returns. }
  destruct (Translation.get_dst (_out_translation u) dst); by eexists.
Qed.

(** C9, as amended. A run that starts from a knowledge base in which no
    tag is both a taxonomy entry and a translation source, on relations
    between tags without a [:], ends in such a knowledge base; and it does
    end, when the global [args] is bound, the seventh field of every relation
    converts and the counts that [add_alias] looks up are recorded.
    [add_alias] returns when its source has no translation destination or the
    counts it compares are recorded, and leaves its source a translation
    source that is not in the taxonomy; [add_tag] leaves the object as it is
    when the tag is a translation source. *)
Theorem category_invariant_preserved (rt : Runtime) (u : Update) :
  category_invariant u →
  tokens_colon_free (rel_set u) →
  (∀ u', run rt u = Some (Ok u') → category_invariant u')
  ∧ (∀ a, g_args rt = Some a →
          relations_readable rt (src_map u) (rel_set u) →
          destinations_recorded u →
          ∃ u', run rt u = Some (Ok u') ∧ category_invariant u')
  ∧ (∀ src dst prefix u',
       colon_free dst = true → add_alias src dst prefix u = Ok u' →
       category_invariant u'
       ∧ Taxonomy.is_tag (_out_taxonomy u') src = false
       ∧ Translation.get_dst (_out_translation u') src ≠ [])
  ∧ (∀ src dst prefix,
       Translation.get_dst (_out_translation u) src = []
       ∨ (is_Some (src_map u !! dst)
          ∧ ∀ e, e ∈ Translation.get_dst (_out_translation u) src →
                 is_Some (src_map u !! e)) →
       ∃ u', add_alias src dst prefix u = Ok u')
  ∧ (∀ name path,
       Translation.get_dst (_out_translation u) name ≠ [] →
       add_tag name path u = u).
Proof.
  intros Hinv Htok.
  assert (Hrun : ∀ u', run rt u = Some (Ok u') → category_invariant u').
  { intros u'. unfold run.
    destruct (run_loop rt (size (rel_set u)) 0 u) as [[u1|e]|] eqn:E; [|done..].
    intros [= <-]. apply run_loop_invariant in E; [|done..].
    destruct (find_expansions_frame rt (emit LogFindingExpansions u1))
      as (_ & Ht & Hr).
    intros t. rewrite Ht, Hr. apply E. }
  split; [exact Hrun|]. split; [|split; [|split]].
  - intros a Ha Hread Hrec.
    assert (∃ u', run rt u = Some (Ok u')) as [u' Hu'].
    { unfold run.
      destruct (run_loop_total rt (size (rel_set u)) 0 u) as (r & Hr & _); [done|].
      rewrite Hr. destruct r as [u1|e]; [by eexists|].
      by apply (run_loop_recorded rt _ _ _ a Ha Hread Hrec) in Hr. }
    exists u'. split; [done|]. by apply Hrun.
  - intros src dst prefix u' Hd. by apply add_alias_invariant.
  - intros src dst prefix. apply add_alias_returns.
  - intros name path. apply add_tag_refuses.
Qed.

(** The run on the file of [upatre] ends, with [upatre] an alias of
    [UNK_A], and [add_alias] returns for the two tags. *)
Lemma category_invariant_preserved_witness :
  (∃ u', run (Concrete.runtime (Some Concrete.args94)) Ex.object_upatre
         = Some (Ok u')
         ∧ category_invariant u'
         ∧ Translation.get_dst (_out_translation u') "upatre" = ["UNK_A"])
  ∧ (∃ u', add_alias "upatre" "UNK_A" "FAM" Ex.object_upatre = Ok u'
           ∧ category_invariant u'
           ∧ Taxonomy.is_tag (_out_taxonomy u') "upatre" = false
           ∧ Translation.get_dst (_out_translation u') "upatre" ≠ []).
Proof.
  destruct (category_invariant_preserved
              (Concrete.runtime (Some Concrete.args94)) Ex.object_upatre)
    as (_ & Hret & Halias & Hareturns & _).
  - intros t Ht.
    change (_out_translation Ex.object_upatre) with (∅ : gmap string (list string)).
    unfold Translation.get_dst, Rules.get_dst. by rewrite lookup_empty.
  - intros rel Hrel.
    change (rel ∈ ({[Ex.rel_upatre]} : gset Relation)) in Hrel.
    apply elem_of_singleton in Hrel as ->. split; reflexivity.
  - split.
    + destruct (Hret Concrete.args94) as (u' & Hu & Hi).
      * reflexivity.
      * intros rel Hrel.
        change (rel ∈ ({[Ex.rel_upatre]} : gset Relation)) in Hrel.
        apply elem_of_singleton in Hrel as ->. split; vm_compute; eauto.
      * intros s d Hd. simpl in Hd.
        unfold Translation.get_dst, Rules.get_dst in Hd.
        rewrite lookup_empty in Hd. by apply elem_of_nil in Hd.
      * exists u'. split; [exact Hu|]. split; [exact Hi|].
        assert (∃ v, run (Concrete.runtime (Some Concrete.args94))
                       Ex.object_upatre = Some (Ok v)
                     ∧ Translation.get_dst (_out_translation v) "upatre"
                       = ["UNK_A"]) as (v & Hv & Hd)
          by (eexists; split; vm_compute; reflexivity).
        rewrite Hu in Hv. injection Hv as ->. exact Hd.
    + destruct (Hareturns "upatre" "UNK_A" "FAM") as [u' Hu]; [by left|].
      exists u'. split; [exact Hu|].
      apply (Halias "upatre" "UNK_A" "FAM" u'); [reflexivity|exact Hu].
Defined.

(** C9 fails as stated. The file holds one strong relation from [x] to
    [a:b], the taxonomy is empty and [b] is an alias of [c]: no tag is both
    a taxonomy entry and a translation source. The run makes [x] an alias of
    [a:b] and adds the path [FAM:a:b], which the taxonomy files under [b]:
    afterwards [b] is a taxonomy entry and a translation source. *)
Lemma category_invariant_counterexample :
  init (Concrete.runtime (Some Concrete.args94)) ExMore.lines_colon ∅
    ExMore.tr_b_c ∅ 20 (94 # 100) = Ok ExMore.object_colon
  ∧ category_invariant ExMore.object_colon
  ∧ (∃ u', run (Concrete.runtime (Some Concrete.args94)) ExMore.object_colon
           = Some (Ok u')
           ∧ Taxonomy.is_tag (_out_taxonomy u') "b" = true
           ∧ Translation.get_dst (_out_translation u') "b" = ["c"])
  ∧ ¬ category_invariant_after_run (Concrete.runtime (Some Concrete.args94))
        ExMore.object_colon.
Proof.
  assert (Hinv : category_invariant ExMore.object_colon).
  { intros t Ht. unfold Taxonomy.is_tag in Ht.
    change (_out_taxonomy ExMore.object_colon)
      with (∅ : gmap string Taxonomy.Tag) in Ht.
    rewrite lookup_empty in Ht. apply bool_decide_eq_true in Ht.
    by destruct Ht. }
  assert (Hrun : ∃ u', run (Concrete.runtime (Some Concrete.args94))
                         ExMore.object_colon = Some (Ok u')
                       ∧ Taxonomy.is_tag (_out_taxonomy u') "b" = true
                       ∧ Translation.get_dst (_out_translation u') "b" = ["c"])
    by (eexists; split; [|split]; vm_compute; reflexivity).
  split; [vm_compute; reflexivity|]. split; [exact Hinv|]. split; [exact Hrun|].
  intros H. destruct Hrun as (u' & Hu & Hb & Hd).
  specialize (H Hinv u' Hu "b" Hb). rewrite Hd in H. discriminate H.
Qed.

(** ** Worked examples for the loader and the known-relation test *)

(** The file of the specification's examples: a comment, a relation seen
    15 times, a relation with the ratio 0.80, a relation with a platform tag
    and a strong relation. The load returns, and keeps the last only. *)
Lemma read_relations_filters_witness :
  ∃ u, init_file (Concrete.runtime None) ExMore.fs_filtered "relations.tsv"
         Ex.tax_platform ∅ ∅ 20 (94 # 100) = Ok u
       ∧ elements (rel_set u) = [Ex.rel_upatre]
       ∧ ∀ rel, rel ∈ rel_set u ↔
           (∃ line, line ∈ Ex.lines_filtered
                    ∧ Py.startswith Py.hash line = false
                    ∧ parse_line line = Some rel)
           ∧ (∃ j, py_int (Concrete.runtime None) (nalias_num rel) = Some j
                   ∧ ¬ (j < 20))
           ∧ (∃ r, py_float (Concrete.runtime None) (talias_num rel) = Some r
                   ∧ ¬ (r < 94 # 100)%Q)
           ∧ t1 rel ∉ Taxonomy.platform_tags Ex.tax_platform
           ∧ t2 rel ∉ Taxonomy.platform_tags Ex.tax_platform.
Proof.
  destruct (read_relations_filters (Concrete.runtime None) ExMore.fs_filtered
              "relations.tsv" Ex.lines_filtered Ex.tax_platform ∅ ∅ 20 (94 # 100))
    as [Hret Hset]; [reflexivity|].
  destruct (proj2 Hret) as [u Hu].
  { repeat (constructor;
            [first [ left; reflexivity
                   | right; eexists _, _;
                     split; [vm_compute; reflexivity|];
                     split; [vm_compute; reflexivity|];
                     first [ left; reflexivity
                           | right; vm_compute; eexists; reflexivity ] ]|]).
    constructor. }
  exists u. split; [exact Hu|]. split; [|exact (Hset u Hu)].
  assert (∃ v, init_file (Concrete.runtime None) ExMore.fs_filtered
                 "relations.tsv" Ex.tax_platform ∅ ∅ 20 (94 # 100) = Ok v
               ∧ elements (rel_set v) = [Ex.rel_upatre]) as (v & Hv & He)
    by (eexists; split; vm_compute; reflexivity).
  rewrite Hu in Hv. injection Hv as ->. exact He.
Defined.

(** The examples of the specification: of a comment, a relation seen 15
    times, a relation with the ratio 0.80, a relation with a platform tag and
    a strong relation, the load keeps the last only. *)
Example weak_and_blacklisted_lines_dropped :
  ∃ u, init (Concrete.runtime None) Ex.lines_filtered Ex.tax_platform ∅ ∅ 20
         (94 # 100) = Ok u
       ∧ elements (rel_set u) = [Ex.rel_upatre].
Proof. eexists. split; vm_compute; reflexivity. Qed.

(** A relation between [windows] and its ancestor [os] is known, and a pass
    drops it. *)
Lemma known_relation_dropped_witness :
  is_known_rel Ex.object_os Ex.rel_os = true
  ∧ ∀ cnt' u', run_pass (Concrete.runtime None) 0 Ex.object_os = Ok (cnt', u') →
               Ex.rel_os ∉ rel_set u'.
Proof.
  destruct (known_relation_dropped (Concrete.runtime None)
              (emit (LogPass 0) Ex.object_os) Ex.rel_os) as [H1 H2].
  assert (Hk : is_known_rel (emit (LogPass 0) Ex.object_os) Ex.rel_os = true).
  { apply H1. left. vm_compute. reflexivity. }
  split; [exact Hk|]. intros cnt' u' Hp.
  refine (proj2 (H2 0%nat Ex.object_os [] [] 0%nat ∅ cnt' u' _ _ Hk) Hp).
  - vm_compute. reflexivity.
  - reflexivity.
Defined.

(** * Further properties *)

(** ** The known-relation test *)

Lemma linked_sym m a b : linked m a b ↔ linked m b a.
Proof. unfold linked. tauto. Qed.

Lemma same_destinations_sym m a b :
  same_destinations m a b ↔ same_destinations m b a.
Proof.
  unfold same_destinations. split; intros [Hne Hp]; (split; [|done]).
  - intros E. rewrite E in Hp. by apply Permutation_nil_r in Hp.
  - intros E. rewrite E in Hp. by apply Permutation_nil_r in Hp.
Qed.

(** X1. [is_known_rel] depends on the relation only through the unordered
    pair of its tags: relations with the same two tags, in either order and
    with any counts, are known together. *)
Theorem is_known_rel_unordered_pair (u : Update) (r1 r2 : Relation) :
  (t1 r2 = t1 r1 ∧ t2 r2 = t2 r1) ∨ (t1 r2 = t2 r1 ∧ t2 r2 = t1 r1) →
  is_known_rel u r2 = is_known_rel u r1.
Proof.
  intros H.
  assert (is_known_rel u r2 = true ↔ is_known_rel u r1 = true) as Hiff.
  { rewrite !is_known_rel_iff. destruct H as [[-> ->]|[-> ->]]; [done|].
    rewrite overlaps_sym, (linked_sym _ (t2 r1)), (linked_sym _ (t2 r1)),
      (same_destinations_sym _ (t2 r1)). done. }
  destruct (is_known_rel u r2), (is_known_rel u r1); try done.
  - symmetry. by apply Hiff.
  - by apply Hiff.
Qed.

(** ** The loader *)

(** X2. [read_relations] returns exactly when the file opens and every
    line of it is a comment or is well formed. When the file does not open it
    raises what [open] raises, and otherwise the only exception it raises is
    [ValueError]. *)
Theorem read_relations_raises_ValueError_or_of_open (rt : Runtime)
    (fs : FileSystem) (filepath : string) (u : Update) :
  ((∃ r, read_relations_file rt fs filepath u = Ok r)
     ↔ ∃ lines, open fs filepath = Ok lines
                ∧ Forall (well_formed_line rt (_n u)) lines)
  ∧ (∀ e, read_relations_file rt fs filepath u = Raise e →
          open fs filepath = Raise e
          ∨ (e = ValueError
             ∧ ∃ lines, open fs filepath = Ok lines
                        ∧ ¬ Forall (well_formed_line rt (_n u)) lines)).
Proof.
  unfold read_relations_file.
  destruct (open fs filepath) as [lines|x].
  2:{ split; [|intros e [= <-]; by left].
      split; [by intros [? ?]|by intros (? & ? & _)]. }
  unfold read_relations.
  pose proof (read_relations_loop_result rt lines ∅ u) as H.
  destruct (read_relations_loop rt lines ∅ u) as [r|e].
  - split; [|done]. split; [by exists lines|by exists r].
  - destruct H as [-> Hn]. split.
    + split; [by intros [? ?]|]. intros (l & [= <-] & ?). done.
    + intros ? [= <-]. right. split; [done|]. by exists lines.
Qed.

(** X3. The working set that [read_relations] returns depends only on
    which lines the file holds: their order and their repetitions do not
    matter. *)
Theorem read_relations_set_of_lines (rt : Runtime) (lines1 lines2 : list string)
    (u : Update) r1 u1 r2 u2 :
  (∀ l, l ∈ lines1 ↔ l ∈ lines2) →
  read_relations rt lines1 u = Ok (r1, u1) →
  read_relations rt lines2 u = Ok (r2, u2) →
  r1 = r2.
Proof.
  unfold read_relations. intros Hl H1 H2.
  apply read_relations_loop_spec in H1 as [-> _], H2 as [-> _].
  apply set_eq. intros rel.
  rewrite !elem_of_union, !elem_of_list_to_set, !list_elem_of_omap.
  split; intros [(l & Hin & Hk)|?]; auto; left; exists l; (split; [|done]);
    by apply Hl.
Qed.

(** X4. [read_relations] writes nothing but [src_map]: the stores, the
    thresholds, the blacklist, the working set of the object and the log are
    as before, and so is the count of every token that no returned relation
    names. *)
Theorem read_relations_frame (rt : Runtime) (lines : list string)
    (u : Update) rs u' :
  read_relations rt lines u = Ok (rs, u') →
  stores u' = stores u ∧ _n u' = _n u ∧ _t u' = _t u ∧ blist u' = blist u
  ∧ rel_set u' = rel_set u ∧ logged u' = logged u
  ∧ (∀ tok, (∀ rel, rel ∈ rs → t1 rel ≠ tok ∧ t2 rel ≠ tok) →
            src_map u' !! tok = src_map u !! tok).
Proof.
  unfold read_relations. intros H.
  apply read_relations_loop_spec in H as [-> ->].
  repeat split. intros tok Htok. cbn [src_map set_src_map].
  rewrite foldl_record_counts.
  destruct (last_count tok (omap (kept rt u) lines)) as [c|] eqn:E; [|done].
  exfalso. assert (last_count tok (omap (kept rt u) lines) = None) as En; [|congruence].
  apply last_count_None. intros rel Hrel. apply Htok.
  apply elem_of_union. left. by apply elem_of_list_to_set.
Qed.

Lemma is_weak_rel_antitone rt u u' rel :
  _n u' ≤ _n u → (_t u' <= _t u)%Q →
  is_weak_rel rt u rel = Ok false → is_weak_rel rt u' rel = Ok false.
Proof.
  intros Hn Ht. rewrite !is_weak_rel_false.
  intros [(j & Hj & Hjn) (r & Hr & Hrt)]. split.
  - exists j. split; [done|lia].
  - exists r. split; [done|]. intros Hlt. apply Hrt.
    eapply Qlt_le_trans; eauto.
Qed.

(** X5. Lowering the thresholds can only add relations: when the same file
    loads under [(n, t)] and under [(n', t')] with [n' <= n] and [t' <= t],
    the working set of the first load is part of that of the second. *)
Theorem read_relations_antitone (rt : Runtime) (lines : list string)
    (tax : gmap string Taxonomy.Tag) (tr ex : gmap string (list string))
    (n n' : Z) (t t' : Q) (u u' : Update) :
  n' ≤ n → (t' <= t)%Q →
  init rt lines tax tr ex n t = Ok u →
  init rt lines tax tr ex n' t' = Ok u' →
  rel_set u ⊆ rel_set u'.
Proof.
  intros Hn Ht. unfold init, read_relations.
  destruct (read_relations_loop _ _ _ _) as [[rs v]|] eqn:E; [|done].
  destruct (read_relations_loop rt lines ∅ {| _n := n' |}) as [[rs' v']|] eqn:E';
    [|done].
  intros [= <-] [= <-]. simpl.
  apply read_relations_loop_spec in E as [-> _], E' as [-> _].
  intros rel. rewrite !elem_of_union, !elem_of_list_to_set, !list_elem_of_omap.
  intros [(l & Hin & Hk)|?]; [|set_solver]. left. exists l. split; [done|].
  apply kept_Some in Hk as (Hc & Hp & Hw & Hb). apply kept_Some.
  repeat split; try done.
  eapply is_weak_rel_antitone; [| |exact Hw]; done.
Qed.

Lemma size_list_to_set_bound (l : list Relation) :
  (size (list_to_set l : gset Relation) ≤ length l)%nat.
Proof.
  induction l as [|x l IH]; simpl.
  - done.
  - rewrite size_union_alt, size_singleton.
    pose proof (subseteq_size (list_to_set l ∖ {[x]}) (list_to_set l : gset Relation)
                  ltac:(set_solver)). lia.
Qed.

(** X6. After a load, [num_rules] is at most the number of lines that are
    not comments. *)
Theorem num_rules_bound (rt : Runtime) (lines : list string)
    (tax : gmap string Taxonomy.Tag) (tr ex : gmap string (list string))
    (n : Z) (t : Q) (u : Update) :
  init rt lines tax tr ex n t = Ok u →
  (num_rules u ≤ length (List.filter (λ l, negb (Py.startswith Py.hash l)) lines))%nat.
Proof.
  unfold init, read_relations, num_rules.
  destruct (read_relations_loop _ _ _ _) as [[rs v]|] eqn:E; [|done].
  intros [= <-]. simpl. apply read_relations_loop_spec in E as [-> _].
  rewrite union_empty_r_L.
  match goal with |- context [omap ?f lines] => set (k := f) end.
  etrans; [apply size_list_to_set_bound|].
  induction lines as [|l lines IH]; [done|].
  assert (omap k (l :: lines) =
            match k l with
            | Some r => r :: omap k lines
            | None => omap k lines
            end) as -> by done.
  cbn [List.filter].
  destruct (Py.startswith Py.hash l) eqn:Hs; cbn [negb].
  - assert (k l = None) as -> by (unfold k, kept; by rewrite Hs). done.
  - destruct (k l); cbn [length]; lia.
Qed.

(** ** Alias merging *)

Lemma last_cons_default {A} (x d : A) (l : list A) :
  List.last (x :: l) d = List.last l x.
Proof.
  revert x d. induction l as [|y l IH]; intros x d; [done|].
  change (List.last (x :: y :: l) d) with (List.last (y :: l) d).
  by rewrite (IH y d), (IH y x).
Qed.

Lemma add_alias_target_result sm cnt_max tr_dst target :
  match add_alias_target sm cnt_max tr_dst target with
  | Ok r => (∀ e, e ∈ tr_dst → is_Some (sm !! e))
            ∧ r = List.last (List.filter (count_above sm cnt_max) tr_dst) target
  | Raise e => e = TypeError ∧ ∃ d, d ∈ tr_dst ∧ sm !! d = None
  end.
Proof.
  revert target. induction tr_dst as [|e l IH]; intros target; simpl.
  - split; [|done]. intros e He. by apply elem_of_nil in He.
  - destruct (sm !! e) as [cnt|] eqn:E.
    2:{ split; [done|]. exists e. split; [by left|done]. }
    assert (count_above sm cnt_max e = String.ltb cnt_max cnt) as Hc
      by (unfold count_above; by rewrite E).
    rewrite Hc.
    specialize (IH (if String.ltb cnt_max cnt then e else target)).
    destruct (add_alias_target sm cnt_max l _) as [r|x].
    + destruct IH as [Hall ->]. split.
      * intros d [->|Hd]%elem_of_cons; [by rewrite E|by apply Hall].
      * destruct (String.ltb cnt_max cnt); [|done].
        by rewrite last_cons_default.
    + destruct IH as [-> (d & Hd & Hn)]. split; [done|].
      exists d. split; [by right|done].
Qed.

(** X9. The loop of [add_alias] returns the last destination of the source
    whose recorded count is above that of [dst], as strings compare, and
    [dst] when there is none: [cnt_max] is never updated, so it is not the
    destination with the greatest count. *)
Theorem add_alias_target_last_above (sm : gmap string string)
    (cnt_max : string) (tr_dst : list string) (target r : string) :
  add_alias_target sm cnt_max tr_dst target = Ok r →
  r = List.last (List.filter (count_above sm cnt_max) tr_dst) target.
Proof.
  intros H. pose proof (add_alias_target_result sm cnt_max tr_dst target) as R.
  rewrite H in R. by destruct R.
Qed.

(** X8. [add_alias] returns when the source has no translation destination,
    or when [dst] and every destination of the source have a recorded count.
    It raises [KeyError] exactly when the source has destinations and [dst]
    has no count, [TypeError] exactly when [dst] has one and some destination
    of the source has none, and nothing else. *)
Theorem add_alias_errors (src dst prefix : string) (u : Update) :
  match add_alias src dst prefix u with
  | Ok _ =>
      Translation.get_dst (_out_translation u) src = []
      ∨ (is_Some (src_map u !! dst)
         ∧ ∀ e, e ∈ Translation.get_dst (_out_translation u) src →
                is_Some (src_map u !! e))
  | Raise KeyError =>
      Translation.get_dst (_out_translation u) src ≠ []
      ∧ src_map u !! dst = None
  | Raise TypeError =>
      Translation.get_dst (_out_translation u) src ≠ []
      ∧ is_Some (src_map u !! dst)
      ∧ ∃ e, e ∈ Translation.get_dst (_out_translation u) src
             ∧ src_map u !! e = None
  | Raise _ => False
  end.
Proof.
  unfold add_alias.
  destruct (Translation.get_dst (_out_translation u) src) as [|d ds] eqn:Hs.
  { destruct (Translation.get_dst (_out_translation u) dst); by left. }
  destruct (src_map u !! dst) as [cnt_max|] eqn:Hd; [|done].
  pose proof (add_alias_target_result (src_map u) cnt_max (d :: ds) dst) as R.
  destruct (add_alias_target (src_map u) cnt_max (d :: ds) dst) as [r|e].
  - destruct R as [Hall _].
    destruct (Translation.get_dst (_out_translation u) dst); right; eauto.
  - destruct R as [-> R]. split; [done|]. split; [by eexists|done].
Qed.

(** X10. After [add_alias src dst] has returned, a relation from [src] to
    [dst] is known, provided that [src] had no translation destination or
    [dst] had one: classifying it again changes nothing. *)
Theorem add_alias_makes_known (src dst prefix : string) (u u' : Update)
    (rel : Relation) :
  add_alias src dst prefix u = Ok u' →
  t1 rel = src → t2 rel = dst →
  Translation.get_dst (_out_translation u) src = []
  ∨ Translation.get_dst (_out_translation u) dst ≠ [] →
  is_known_rel u' rel = true.
Proof.
  intros H <- <- Hc. apply is_known_rel_iff. right. right.
  unfold add_alias in H.
  destruct (Translation.get_dst (_out_translation u) (t2 rel)) as [|d ds] eqn:Hd.
  - destruct Hc as [Hs|?]; [|done]. rewrite Hs in H. injection H as <-.
    left. left. cbn [_out_translation set_translation].
    unfold Translation.add_rule, Rules.get_dst. rewrite lookup_insert_eq. simpl.
    by left.
  - match type of H with match ?c with _ => _ end = _ =>
      destruct c as [target|]; [|done] end.
    injection H as <-. right. cbn [_out_translation set_translation].
    unfold same_destinations, Translation.add_rule, Rules.get_dst.
    rewrite lookup_insert_eq. simpl. split; [done|].
    destruct (decide (t1 rel = t2 rel)) as [E|E].
    + rewrite <- E, lookup_insert_eq. done.
    + rewrite lookup_insert_ne by done.
      unfold Translation.get_dst, Rules.get_dst in Hd. by rewrite Hd.
Qed.

(** ** The decision table, continued *)

Ltac split_categories :=
  repeat match goal with
         | |- context [String.eqb ?a ?b] =>
             destruct (String.eqb_spec a b); simpl
         end.

(** X11. A relation whose inverse ratio reaches the threshold is never
    deferred: when [process_relation] returns for it, it returns [1] or
    [-1]. *)
Theorem strong_relation_never_deferred (rt : Runtime) (rel : Relation)
    (u : Update) (a : Args) (r : Q) (z : Z) (u' : Update) :
  g_args rt = Some a →
  py_float rt (tinv_alias_num rel) = Some r →
  (args_t a <= r)%Q →
  process_relation rt rel u = Ok (z, u') →
  z = 1 ∨ z = -1.
Proof.
  intros Ha Hf Hle. unfold process_relation, Taxonomy.get_info.
  rewrite Hf, Ha. apply Qle_bool_iff in Hle. rewrite Hle.
  split_categories;
    try (destruct (add_alias _ _ _ _); [|done]); intros [= <- <-]; auto.
Qed.

(** X12. [process_relation] returns [-1] only for a relation whose inverse
    ratio reaches the threshold and whose tags have two different categories,
    neither [UNK]; the stores are then as before and the last record logged
    is the warning. *)
Theorem contradiction_only_for_distinct_categories (rt : Runtime)
    (rel : Relation) (u u' : Update) :
  process_relation rt rel u = Ok (-1, u') →
  let c1 := Taxonomy.get_category (_out_taxonomy u) (t1 rel) in
  let c2 := Taxonomy.get_category (_out_taxonomy u) (t2 rel) in
  (∃ a r, g_args rt = Some a ∧ py_float rt (tinv_alias_num rel) = Some r
          ∧ (args_t a <= r)%Q)
  ∧ c1 ≠ "UNK" ∧ c2 ≠ "UNK" ∧ c1 ≠ c2
  ∧ stores u' = stores u
  ∧ List.last (logged u') (LogPass 0)
    = LogDifferentCategories (Taxonomy.get_path (_out_taxonomy u) (t1 rel))
        (Taxonomy.get_path (_out_taxonomy u) (t2 rel)).
Proof.
  unfold process_relation, Taxonomy.get_info.
  destruct (py_float rt (tinv_alias_num rel)) as [r|]; [|done].
  destruct (g_args rt) as [a|]; [|done].
  destruct (Qle_bool (args_t a) r) eqn:Hle.
  - split_categories;
      try (destruct (add_alias _ _ _ _); [|done]); intros [= <-];
      cbv zeta; (split; [exists a, r; by rewrite Qle_bool_iff in Hle|]);
      repeat split; try done.
    cbn [logged emit]. by rewrite last_last.
  - split_categories;
      try (destruct (add_alias _ _ _ _); [|done]); intros [=].
Qed.

(** X14. A relation that [is_expansion_rel] accepts goes from a tag of
    category [FAM], [CLASS] or [UNK] to a tag of another category that is
    neither [UNK] nor [FAM]; its two tags differ. *)
Theorem is_expansion_rel_categories (u : Update) (rel : Relation) :
  is_expansion_rel u rel = true →
  let c1 := Taxonomy.get_category (_out_taxonomy u) (t1 rel) in
  let c2 := Taxonomy.get_category (_out_taxonomy u) (t2 rel) in
  (c1 = "FAM" ∨ c1 = "CLASS" ∨ c1 = "UNK")
  ∧ c2 ≠ "UNK" ∧ c2 ≠ "FAM" ∧ c1 ≠ c2 ∧ t1 rel ≠ t2 rel.
Proof.
  unfold is_expansion_rel. cbv zeta.
  set (c1 := Taxonomy.get_category (_out_taxonomy u) (t1 rel)).
  set (c2 := Taxonomy.get_category (_out_taxonomy u) (t2 rel)).
  intros H.
  assert ((c1 = "FAM" ∨ c1 = "CLASS" ∨ c1 = "UNK")
          ∧ c2 ≠ "UNK" ∧ c2 ≠ "FAM" ∧ c1 ≠ c2) as G.
  { revert H. split_categories; intros H; try discriminate H;
      repeat split; auto; congruence. }
  destruct G as (G1 & G2 & G3 & G4). repeat split; try done.
  intros E. apply G4. unfold c1, c2. by rewrite E.
Qed.

Lemma category_of_family (t : string) :
  colon_free t = true → Taxonomy.category_of ("FAM:" +:+ t) = "FAM".
Proof.
  intros Ht. unfold Taxonomy.category_of, Taxonomy.components.
  change ("FAM:" +:+ t) with ("FAM" +:+ String Py.colon t).
  by rewrite split_app_sep, (split_colon_free t Ht).
Qed.

(** X13. With the threshold global bound, a relation that is not strong in
    the inverse direction, from a tag that is neither in the taxonomy nor an
    alias to a tag of category [CLASS] or [BEH], is deferred: [process_relation]
    returns [0] after filing [t1] as [FAM:t1], and [is_expansion_rel] accepts
    the relation afterwards. *)
Theorem unknown_tag_filed_as_family (rt : Runtime) (rel : Relation)
    (u : Update) (a : Args) (r : Q) :
  g_args rt = Some a →
  py_float rt (tinv_alias_num rel) = Some r →
  ¬ (args_t a <= r)%Q →
  Taxonomy.is_tag (_out_taxonomy u) (t1 rel) = false →
  Translation.get_dst (_out_translation u) (t1 rel) = [] →
  colon_free (t1 rel) = true →
  Taxonomy.get_category (_out_taxonomy u) (t2 rel) = "CLASS"
  ∨ Taxonomy.get_category (_out_taxonomy u) (t2 rel) = "BEH" →
  ∃ u', process_relation rt rel u = Ok (0, u')
     ∧ Taxonomy.get_info (_out_taxonomy u') (t1 rel) = ("FAM:" +:+ t1 rel, "FAM")
     ∧ Taxonomy.get_category (_out_taxonomy u') (t2 rel)
       = Taxonomy.get_category (_out_taxonomy u) (t2 rel)
     ∧ is_expansion_rel u' rel = true
     ∧ _out_translation u' = _out_translation u
     ∧ _out_expansion u' = _out_expansion u.
Proof.
  intros Ha Hf Hle Htag Hdst Hcf Hc2.
  assert (Hnone : _out_taxonomy u !! t1 rel = None).
  { unfold Taxonomy.is_tag in Htag. apply bool_decide_eq_false in Htag.
    by apply eq_None_not_Some. }
  assert (Hc1 : Taxonomy.get_category (_out_taxonomy u) (t1 rel) = "UNK")
    by (unfold Taxonomy.get_category; by rewrite Hnone).
  assert (Hne : t1 rel ≠ t2 rel).
  { intros E. rewrite <- E, Hc1 in Hc2. by destruct Hc2. }
  assert (Hq : Qle_bool (args_t a) r = false).
  { destruct (Qle_bool (args_t a) r) eqn:E; [|done].
    by apply Qle_bool_iff in E. }
  set (u' := add_tag (t1 rel) ("FAM:" +:+ t1 rel)
               (emit (LogProcessing (Taxonomy.get_path (_out_taxonomy u) (t1 rel))
                        (Taxonomy.get_path (_out_taxonomy u) (t2 rel))) u)).
  assert (Hrun : process_relation rt rel u = Ok (0, u')).
  { unfold process_relation, Taxonomy.get_info. rewrite Hf, Ha, Hq, Hc1.
    destruct Hc2 as [-> | ->]; reflexivity. }
  assert (Htax : _out_taxonomy u'
                 = <[t1 rel := {| Taxonomy.path := "FAM:" +:+ t1 rel;
                                   Taxonomy.platform := false |}]> (_out_taxonomy u)).
  { unfold u', add_tag. cbn [_out_translation emit]. rewrite Hdst.
    cbn [_out_taxonomy set_taxonomy emit]. unfold Taxonomy.add_tag.
    change ("FAM:" +:+ t1 rel) with ("FAM" +:+ ":" +:+ t1 rel).
    rewrite (name_of_suffix "FAM" (t1 rel) Hcf), Hnone. done. }
  assert (Hc2' : Taxonomy.get_category (_out_taxonomy u') (t2 rel)
                 = Taxonomy.get_category (_out_taxonomy u) (t2 rel)).
  { unfold Taxonomy.get_category. rewrite Htax, lookup_insert_ne; done. }
  assert (Hc1' : Taxonomy.get_category (_out_taxonomy u') (t1 rel) = "FAM").
  { unfold Taxonomy.get_category. rewrite Htax, lookup_insert_eq.
    by apply category_of_family. }
  exists u'. split; [done|]. split.
  { unfold Taxonomy.get_info, Taxonomy.get_path. rewrite Hc1', Htax, lookup_insert_eq.
    done. }
  split; [done|]. split.
  { unfold is_expansion_rel. rewrite Hc1', Hc2'.
    destruct Hc2 as [-> | ->]; reflexivity. }
  unfold u', add_tag. cbn [_out_translation emit]. by rewrite Hdst.
Qed.

(** ** What a run leaves untouched *)

Lemma set_iter_empty rt : set_iter rt ∅ = [].
Proof.
  apply Permutation_nil_r. rewrite (set_iter_perm rt ∅). by rewrite elements_empty.
Qed.

Lemma run_inner_all_known rt l cnt ns u :
  (∀ rel, rel ∈ l → is_known_rel u rel = true) →
  run_inner rt l cnt ns u = Ok (cnt, ns, u).
Proof.
  induction l as [|rel l IH]; intros H; simpl; [done|].
  rewrite (H rel) by (by left). apply IH. intros r Hr. apply H. by right.
Qed.

(** X18. A working set of known relations is consumed by [run], whatever
    the runtime: the run returns with the stores and the settings as they were
    and an empty working set. *)
Theorem run_on_known_relations (rt : Runtime) (u : Update) :
  (∀ rel, rel ∈ rel_set u → is_known_rel u rel = true) →
  ∃ u', run rt u = Some (Ok u')
        ∧ stores u' = stores u ∧ settings u' = settings u ∧ rel_set u' = ∅.
Proof.
  intros Hk. unfold run.
  assert (Hfe : ∀ v, rel_set v = ∅ →
            find_expansions rt (emit LogFindingExpansions v)
            = set_rel_set ∅ (emit LogFindingExpansions v)).
  { intros v Hv. unfold find_expansions. cbn [rel_set emit]. rewrite Hv.
    rewrite set_iter_empty. simpl. rewrite Hv. f_equal. }
  destruct (size (rel_set u)) as [|fuel] eqn:Hsize.
  - apply size_empty_iff, leibniz_equiv in Hsize. simpl.
    destruct (decide (rel_set u = ∅)); [|done].
    eexists. split; [done|]. by rewrite Hfe.
  - simpl. destruct (decide (rel_set u = ∅)) as [He|_].
    { rewrite He in Hsize. done. }
    unfold run_pass. rewrite run_inner_all_known.
    2:{ intros rel Hrel. apply set_iter_elem in Hrel. by apply Hk. }
    simpl. eexists. split; [done|]. by rewrite Hfe.
Qed.

Lemma classified_expansion rel u0 z u' :
  classified rel u0 z u' →
  _out_expansion u' = _out_expansion u0 ∧ settings u' = settings u0.
Proof.
  intros [prefix u1 H|z' p Hz| |p1 p2]; try done.
  - apply add_alias_inv in H as (l & _ & ->). done.
  - unfold add_tag. by destruct (Translation.get_dst _ _).
Qed.

Lemma run_inner_expansion rt l cnt ns u cnt' ns' u' :
  run_inner rt l cnt ns u = Ok (cnt', ns', u') →
  _out_expansion u' = _out_expansion u ∧ settings u' = settings u.
Proof.
  revert cnt ns u. induction l as [|rel l IH]; intros cnt ns u; simpl.
  - by intros [= <- <- <-].
  - destruct (is_known_rel u rel); [apply IH|].
    destruct (process_relation rt rel u) as [[z u1]|e] eqn:E; [|done].
    apply process_relation_cases, classified_expansion in E as [E1 E2].
    simpl in E1, E2.
    destruct (z =? 0); intros H; apply IH in H as [-> ->]; done.
Qed.

Lemma run_loop_expansion rt fuel k u u' :
  run_loop rt fuel k u = Some (Ok u') →
  _out_expansion u' = _out_expansion u ∧ settings u' = settings u
  ∧ rel_set u' ⊆ rel_set u.
Proof.
  revert k u. induction fuel as [|fuel IH]; intros k u; simpl.
  - destruct (decide (rel_set u = ∅)); [|done]. by intros [= <-].
  - destruct (decide (rel_set u = ∅)); [by intros [= <-]|].
    destruct (run_pass rt k u) as [[cnt u1]|e] eqn:E; [|done].
    assert (_out_expansion u1 = _out_expansion u ∧ settings u1 = settings u
            ∧ rel_set u1 ⊆ rel_set u) as (H1 & H2 & H3).
    { pose proof (run_pass_bounds _ _ _ _ _ E) as [Hsub _].
      unfold run_pass in E.
      destruct (run_inner _ _ _ _ _) as [[[c ns] v]|] eqn:E'; [|done].
      injection E as <- <-. apply run_inner_expansion in E' as [E1 E2].
      unfold settings in *. simpl in *. by rewrite E1, E2. }
    destruct (cnt =? 0)%nat; [by intros [= <-]|].
    intros H. apply IH in H as (-> & -> & H). split; [done|]. split; [done|].
    set_solver.
Qed.

Lemma find_expansions_loop_settings l acc u :
  settings (snd (find_expansions_loop l acc u)) = settings u.
Proof.
  revert acc u. induction l as [|rel l IH]; intros acc u; simpl; [done|].
  destruct (Translation.get_dst (_out_translation u) (t1 rel)).
  - destruct (is_expansion_rel _ rel); rewrite IH; [|done].
    unfold add_expansion. by destruct (Expansion.get_dst _ _).
  - by rewrite IH.
Qed.

Lemma find_expansions_loop_rel_set l acc u :
  rel_set (snd (find_expansions_loop l acc u)) = rel_set u.
Proof.
  revert acc u. induction l as [|rel l IH]; intros acc u; simpl; [done|].
  destruct (Translation.get_dst (_out_translation u) (t1 rel)).
  - destruct (is_expansion_rel _ rel); rewrite IH; [|done].
    unfold add_expansion. by destruct (Expansion.get_dst _ _).
  - by rewrite IH.
Qed.

Lemma find_expansions_settings rt u :
  settings (find_expansions rt u) = settings u
  ∧ rel_set (find_expansions rt u) ⊆ rel_set u.
Proof.
  unfold find_expansions.
  pose proof (find_expansions_loop_settings (set_iter rt (rel_set u)) [] u) as H.
  pose proof (find_expansions_loop_rel_set (set_iter rt (rel_set u)) [] u) as Hr.
  destruct (find_expansions_loop _ _ _) as [acc u']. simpl in *.
  split; [done|]. rewrite Hr. set_solver.
Qed.

(** X17. A run that returns has not touched the thresholds, the blacklist
    or the recorded counts, and its working set is part of the one it started
    from. *)
Theorem run_settings_unchanged (rt : Runtime) (u u' : Update) :
  run rt u = Some (Ok u') →
  settings u' = settings u ∧ rel_set u' ⊆ rel_set u.
Proof.
  unfold run.
  destruct (run_loop rt (size (rel_set u)) 0 u) as [[u1|e]|] eqn:E; [|done..].
  intros [= <-]. apply run_loop_expansion in E as (_ & E2 & E3).
  destruct (find_expansions_settings rt (emit LogFindingExpansions u1)) as [-> H].
  split; [done|]. simpl in H. set_solver.
Qed.

(** X16. The two phases of [run] write different stores: the loop never
    writes the expansion table, and [find_expansions] never writes the
    taxonomy or the translation table. *)
Theorem stores_written_by_phase (rt : Runtime) (u : Update) :
  (∀ fuel k u1, run_loop rt fuel k u = Some (Ok u1) →
                _out_expansion u1 = _out_expansion u)
  ∧ _out_taxonomy (find_expansions rt u) = _out_taxonomy u
  ∧ _out_translation (find_expansions rt u) = _out_translation u.
Proof.
  split.
  - intros fuel k u1 H. by apply run_loop_expansion in H as [? _].
  - by destruct (find_expansions_frame rt u) as (_ & ? & ?).
Qed.

(** ** The expansion pass *)

Lemma resolved_as_expansion_ext u u' rel :
  _out_taxonomy u' = _out_taxonomy u →
  _out_translation u' = _out_translation u →
  resolved_as_expansion u' rel = resolved_as_expansion u rel.
Proof.
  intros Ht Hr. unfold resolved_as_expansion, is_expansion_rel.
  by rewrite Ht, Hr.
Qed.

Lemma remove_overlaps_go_prefix tax l out :
  ∃ more, Taxonomy.remove_overlaps_go tax l out = out ++ more.
Proof.
  revert out. induction l as [|x l IH]; intros out; simpl.
  - exists []. by rewrite app_nil_r.
  - destruct (existsb _ out); [apply IH|].
    destruct (IH (out ++ [x])) as [more ->]. exists (x :: more).
    by rewrite <- app_assoc.
Qed.

Lemma add_expansion_get_dst src dst_l u s :
  dst_l ≠ [] →
  Translation.get_dst (_out_translation u) src = [] →
  (s = src ∨ Expansion.get_dst (_out_expansion u) s ≠ []) →
  Expansion.get_dst (_out_expansion (add_expansion src dst_l u)) s ≠ [].
Proof.
  intros Hl Hs Hcase. unfold add_expansion. rewrite Hs.
  destruct (Expansion.get_dst (_out_expansion u) src) as [|d ds] eqn:E;
    cbn [_out_expansion set_expansion]; unfold Expansion.add_rule, Rules.get_dst.
  - destruct (decide (s = src)) as [->|Hne].
    + by rewrite lookup_insert_eq.
    + rewrite lookup_insert_ne by done. by destruct Hcase.
  - destruct (decide (s = src)) as [->|Hne].
    + rewrite lookup_insert_eq. cbn [default]. unfold Taxonomy.remove_overlaps.
      change ((d :: ds) ++ dst_l) with (d :: (ds ++ dst_l)).
      cbn [Taxonomy.remove_overlaps_go existsb].
      destruct (remove_overlaps_go_prefix (_out_taxonomy u) (ds ++ dst_l) ([] ++ [d]))
        as [more ->]. done.
    + rewrite lookup_insert_ne by done. by destruct Hcase.
Qed.

Lemma find_expansions_loop_spec l acc u :
  let r := find_expansions_loop l acc u in
  fst r = acc ++ List.filter (resolved_as_expansion u) l
  ∧ _out_taxonomy (snd r) = _out_taxonomy u
  ∧ _out_translation (snd r) = _out_translation u
  ∧ rel_set (snd r) = rel_set u
  ∧ ((∀ rel, rel ∈ acc → Expansion.get_dst (_out_expansion u) (t1 rel) ≠ []) →
     ∀ rel, rel ∈ fst r → Expansion.get_dst (_out_expansion (snd r)) (t1 rel) ≠ []).
Proof.
  revert acc u. induction l as [|rel l IH]; intros acc u; cbv zeta.
  { simpl. rewrite app_nil_r. repeat split; auto. }
  cbn [find_expansions_loop List.filter].
  unfold resolved_as_expansion at 1.
  set (u0 := emit (LogProcessing (Taxonomy.get_path (_out_taxonomy u) (t1 rel))
                     (Taxonomy.get_path (_out_taxonomy u) (t2 rel))) u).
  change (_out_translation u0) with (_out_translation u).
  change (is_expansion_rel u0 rel) with (is_expansion_rel u rel).
  destruct (Translation.get_dst (_out_translation u) (t1 rel)) as [|d ds] eqn:Hd.
  - rewrite bool_decide_eq_true_2 by done. simpl andb.
    destruct (is_expansion_rel u rel) eqn:He.
    + specialize (IH (acc ++ [rel]) (add_expansion (t1 rel) [t2 rel] u0)).
      cbv zeta in IH. destruct IH as (I1 & I2 & I3 & I4 & I5).
      assert (Hf : _out_taxonomy (add_expansion (t1 rel) [t2 rel] u0) = _out_taxonomy u
                   ∧ _out_translation (add_expansion (t1 rel) [t2 rel] u0)
                     = _out_translation u
                   ∧ rel_set (add_expansion (t1 rel) [t2 rel] u0) = rel_set u).
      { unfold add_expansion.
        by destruct (Expansion.get_dst (_out_expansion u0) (t1 rel)). }
      destruct Hf as (F1 & F2 & F3).
      rewrite I1, I2, I3, I4, F1, F2, F3.
      split.
      { rewrite <- app_assoc. simpl. f_equal. f_equal.
        apply filter_ext. intros r. by apply resolved_as_expansion_ext. }
      repeat split; try done.
      intros Hacc r Hr. rewrite <- I1 in Hr. apply I5; [|done].
      intros r' Hr'. apply add_expansion_get_dst; [done|done|].
      apply elem_of_app in Hr' as [Hr'|Hr'].
      * right. by apply Hacc.
      * apply list_elem_of_singleton in Hr' as ->. by left.
    + specialize (IH acc u0). cbv zeta in IH.
      destruct IH as (I1 & I2 & I3 & I4 & I5).
      rewrite I1. repeat split; try done.
      intros Hacc r Hr. rewrite <- I1 in Hr. by apply I5.
  - rewrite bool_decide_eq_false_2 by done. simpl andb.
    specialize (IH acc (emit (LogIgnoringAlias
                   (Taxonomy.get_path (_out_taxonomy u) (t1 rel))) u0)).
    cbv zeta in IH. destruct IH as (I1 & I2 & I3 & I4 & I5).
    rewrite I1. repeat split; try done.
    intros Hacc r Hr. rewrite <- I1 in Hr. by apply I5.
Qed.

(** X15. [find_expansions] removes from the working set exactly the
    relations that [is_expansion_rel] accepts and whose [t1] has no
    translation destination, in whatever order the set is iterated; the [t1]
    of every removed relation has expansion destinations afterwards. *)
Theorem find_expansions_resolves (rt : Runtime) (u : Update) :
  (∀ rel, rel ∈ rel_set (find_expansions rt u)
          ↔ rel ∈ rel_set u ∧ resolved_as_expansion u rel = false)
  ∧ (∀ rel, rel ∈ rel_set u → resolved_as_expansion u rel = true →
            Expansion.get_dst (_out_expansion (find_expansions rt u)) (t1 rel) ≠ []).
Proof.
  unfold find_expansions.
  pose proof (find_expansions_loop_spec (set_iter rt (rel_set u)) [] u) as H.
  cbv zeta in H. destruct (find_expansions_loop _ _ _) as [acc u'].
  simpl in H. destruct H as (-> & _ & _ & Hr & Hne). split.
  - intros rel. cbn [rel_set set_rel_set]. rewrite Hr, elem_of_difference,
      elem_of_list_to_set, list_elem_of_In, filter_In, <- list_elem_of_In,
      set_iter_elem.
    split.
    + intros [Hin Hn]. split; [done|].
      destruct (resolved_as_expansion u rel); [|done]. by destruct Hn.
    + intros [Hin Hf]. split; [done|]. intros [_ ?]. congruence.
  - intros rel Hin Hres. cbn [_out_expansion set_rel_set]. apply Hne.
    + intros r Hr'. by apply elem_of_nil in Hr'.
    + apply list_elem_of_In, filter_In. split; [|done].
      apply list_elem_of_In. by apply set_iter_elem.
Qed.

(** ** Runs without exceptions *)

(** X19. [run] returns, without an exception, when the global [args] is
    bound, the seventh field of every relation converts with [float], the
    second tag of every relation has a recorded count, and every destination
    of a translation rule has one. *)
Theorem run_returns_when_counts_recorded (rt : Runtime) (u : Update) (a : Args) :
  g_args rt = Some a →
  relations_readable rt (src_map u) (rel_set u) →
  destinations_recorded u →
  ∃ u', run rt u = Some (Ok u').
Proof.
  intros Ha Hread Hrec. unfold run.
  destruct (run_loop_total rt (size (rel_set u)) 0 u) as (r & Hr & _); [done|].
  rewrite Hr. destruct r as [u1|e]; [by eexists|].
  by apply (run_loop_recorded rt _ _ _ a Ha Hread Hrec) in Hr.
Qed.

Lemma add_alias_target_not_KeyError sm cnt_max tr_dst target :
  add_alias_target sm cnt_max tr_dst target ≠ Raise KeyError.
Proof.
  revert target. induction tr_dst as [|e l IH]; intros target; simpl; [done|].
  destruct (sm !! e); [apply IH|done].
Qed.

Lemma add_alias_KeyError src dst prefix u :
  add_alias src dst prefix u = Raise KeyError → src_map u !! dst = None.
Proof.
  unfold add_alias.
  destruct (Translation.get_dst (_out_translation u) src) as [|d ds].
  { by destruct (Translation.get_dst (_out_translation u) dst). }
  destruct (src_map u !! dst) as [c|]; [|done].
  pose proof (add_alias_target_not_KeyError (src_map u) c (d :: ds) dst) as H.
  destruct (add_alias_target _ _ _ _) as [r|e].
  - by destruct (Translation.get_dst (_out_translation u) dst).
  - intros [= ->]. done.
Qed.

Lemma process_relation_KeyError rt rel u :
  process_relation rt rel u = Raise KeyError → src_map u !! t2 rel = None.
Proof.
  unfold process_relation, Taxonomy.get_info.
  destruct (py_float rt (tinv_alias_num rel)); [|done].
  destruct (g_args rt); [|done].
  repeat match goal with
         | |- context [if ?b then _ else _] => destruct b
         end; try done;
  (destruct (add_alias _ _ _ _) eqn:E; [done|]);
  intros [= ->]; by apply add_alias_KeyError in E.
Qed.

Lemma run_inner_KeyError rt l cnt ns u :
  run_inner rt l cnt ns u = Raise KeyError →
  ∃ rel, rel ∈ l ∧ src_map u !! t2 rel = None.
Proof.
  revert cnt ns u. induction l as [|rel l IH]; intros cnt ns u; simpl; [done|].
  destruct (is_known_rel u rel).
  { intros (r & ? & ?)%IH. exists r. split; [by right|done]. }
  destruct (process_relation rt rel u) as [[z u1]|e] eqn:E.
  - apply process_relation_cases, classified_expansion in E as [_ E].
    assert (src_map u1 = src_map u) as Hsm by (unfold settings in E; simpl in E; congruence).
    destruct (z =? 0); intros (r & ? & Hr)%IH; exists r; (split; [by right|]);
      by rewrite <- Hsm.
  - intros [= ->]. exists rel. split; [by left|]. by apply process_relation_KeyError in E.
Qed.

Lemma run_loop_KeyError rt fuel k u :
  run_loop rt fuel k u = Some (Raise KeyError) →
  ∃ rel, rel ∈ rel_set u ∧ src_map u !! t2 rel = None.
Proof.
  revert k u. induction fuel as [|fuel IH]; intros k u; simpl.
  - by destruct (decide (rel_set u = ∅)).
  - destruct (decide (rel_set u = ∅)); [done|].
    destruct (run_pass rt k u) as [[cnt u1]|e] eqn:E.
    + pose proof (run_pass_bounds _ _ _ _ _ E) as [Hsub _].
      assert (src_map u1 = src_map u) as Hsm.
      { unfold run_pass in E.
        destruct (run_inner _ _ _ _ _) as [[[c ns] v]|] eqn:E'; [|done].
        injection E as <- <-. apply run_inner_expansion in E' as [_ E'].
        unfold settings in E'. simpl in *. congruence. }
      destruct (cnt =? 0)%nat; [done|].
      intros (r & Hr & Hn)%IH. exists r. split; [by apply Hsub|by rewrite <- Hsm].
    + intros [= ->]. unfold run_pass in E.
      destruct (run_inner _ _ _ _ _) as [[[c ns] v]|e] eqn:E'; [done|].
      injection E as ->. apply run_inner_KeyError in E' as (r & Hr & Hn).
      exists r. split; [by apply set_iter_elem in Hr|done].
Qed.

(** after a load, both tags of every relation have a recorded count *)
Lemma init_counts_recorded rt lines tax tr ex n t u rel :
  init rt lines tax tr ex n t = Ok u → rel ∈ rel_set u →
  is_Some (src_map u !! t1 rel) ∧ is_Some (src_map u !! t2 rel).
Proof.
  unfold init, read_relations.
  destruct (read_relations_loop _ _ _ _) as [[rs v]|] eqn:E; [|done].
  intros [= <-]. apply read_relations_loop_spec in E as [-> ->]. simpl.
  rewrite union_empty_r_L, elem_of_list_to_set. intros Hin.
  rewrite !foldl_record_counts.
  split.
  - destruct (last_count (t1 rel) _) eqn:L; [done|].
    rewrite last_count_None in L. by destruct (L rel Hin).
  - destruct (last_count (t2 rel) _) eqn:L; [done|].
    rewrite last_count_None in L. by destruct (L rel Hin).
Qed.

(** X7. After a load, [run] never raises [KeyError]: the loader records a
    count for both tags of every relation it keeps, and nothing in [run]
    removes one, so the lookup [self.src_map[dst]] of [add_alias] finds its
    key. *)
Theorem run_after_load_never_KeyError (rt : Runtime) (lines : list string)
    (tax : gmap string Taxonomy.Tag) (tr ex : gmap string (list string))
    (n : Z) (t : Q) (u : Update) :
  init rt lines tax tr ex n t = Ok u →
  run rt u ≠ Some (Raise KeyError).
Proof.
  intros Hinit. unfold run.
  destruct (run_loop rt (size (rel_set u)) 0 u) as [[u1|e]|] eqn:E; try done.
  intros [= ->]. apply run_loop_KeyError in E as (rel & Hin & Hn).
  destruct (init_counts_recorded _ _ _ _ _ _ _ _ rel Hinit Hin) as [_ [c Hc]].
  congruence.
Qed.

(** ** Writing the relations *)

Lemma string_app_cons (x : ascii) (a b : string) :
  String x a +:+ b = String x (a +:+ b).
Proof. reflexivity. Qed.

Lemma string_app_assoc (a b c : string) : (a +:+ b) +:+ c = a +:+ (b +:+ c).
Proof.
  induction a as [|x a IH]; [done|]. by rewrite !string_app_cons, IH.
Qed.

Lemma string_app_nil_r (a : string) : a +:+ "" = a.
Proof. induction a as [|x a IH]; [done|]. by rewrite string_app_cons, IH. Qed.

Lemma rev_app_acc (s acc : string) :
  String.rev_app s acc = String.rev_app s "" +:+ acc.
Proof.
  revert acc. induction s as [|x s IH]; intros acc; [done|].
  cbn [String.rev_app].
  rewrite (IH (String x acc)), (IH (String x "")), string_app_assoc. done.
Qed.

Lemma rev_cons (x : ascii) (s : string) :
  String.rev (String x s) = String.rev s +:+ String x "".
Proof. unfold String.rev. cbn [String.rev_app]. apply rev_app_acc. Qed.

Lemma rev_app (a b : string) :
  String.rev (a +:+ b) = String.rev b +:+ String.rev a.
Proof.
  induction a as [|x a IH].
  - change ("" +:+ b) with b. change (String.rev "") with "".
    by rewrite string_app_nil_r.
  - rewrite string_app_cons, !rev_cons, IH, string_app_assoc. done.
Qed.

Lemma rev_involutive (s : string) : String.rev (String.rev s) = s.
Proof.
  induction s as [|x s IH]; [done|].
  rewrite rev_cons, rev_app, IH. done.
Qed.

(** A byte below 128 is no byte of a white space character of two or
    three bytes. *)
Lemma ascii_in_no_wide_space (x : ascii) :
  (Ascii.nat_of_ascii x < 128)%nat →
  (∀ y, Py.isspace2 y x = false) ∧ (∀ y, Py.isspace2 x y = false)
  ∧ (∀ y z, Py.isspace3 x y z = false) ∧ (∀ y z, Py.isspace3 y x z = false)
  ∧ (∀ y z, Py.isspace3 y z x = false).
Proof.
  intros Hx. unfold Py.isspace2, Py.isspace3. cbv zeta.
  assert (E : ∀ k, (128 ≤ k)%nat → (Ascii.nat_of_ascii x =? k)%nat = false)
    by (intros k Hk; apply Nat.eqb_neq; lia).
  assert (L : (128 <=? Ascii.nat_of_ascii x)%nat = false)
    by (apply Nat.leb_gt; lia).
  repeat split; intros;
    rewrite ?L, ?(E 194%nat), ?(E 133%nat), ?(E 160%nat), ?(E 225%nat),
      ?(E 154%nat), ?(E 128%nat), ?(E 226%nat), ?(E 129%nat), ?(E 159%nat),
      ?(E 227%nat), ?(E 168%nat), ?(E 169%nat), ?(E 175%nat) by lia;
    cbn [andb orb]; rewrite ?andb_false_r; reflexivity.
Qed.

Section Strip.

Context (p1 : ascii → bool) (p2 : ascii → ascii → bool)
  (p3 : ascii → ascii → ascii → bool).

Lemma lstrip_by_clean (s : string) :
  clean_by p1 p2 p3 s = true → Py.lstrip_by p1 p2 p3 s = s.
Proof.
  destruct s as [|a [|b [|c s]]]; cbn [clean_by Py.lstrip_by]; [done|..].
  - by destruct (p1 a).
  - destruct (p1 a); [done|]. by destruct (p2 a b).
  - destruct (p1 a); [done|]. destruct (p2 a b); [done|]. by destruct (p3 a b c).
Qed.

Lemma clean_by_app_sep (a b : string) (x : ascii) :
  (∀ y, p2 y x = false) → (∀ y z, p3 y x z = false) →
  (∀ y z, p3 y z x = false) →
  clean_by p1 p2 p3 a = true → clean_by p1 p2 p3 (a +:+ String x b) = true.
Proof.
  intros H2 H3 H3'. destruct a as [|a0 [|a1 [|a2 a]]]; [done|..];
    rewrite ?string_app_cons; change ("" +:+ String x b) with (String x b);
    cbn [clean_by].
  - intros H. apply andb_true_iff in H as [-> _]. rewrite H2.
    destruct b; [done|]. by rewrite H3.
  - intros H. apply andb_true_iff in H as [-> H].
    apply andb_true_iff in H as [-> _]. by rewrite H3'.
  - done.
Qed.

End Strip.

Lemma starts_clean_sep (a b : string) (x : ascii) :
  (Ascii.nat_of_ascii x < 128)%nat →
  starts_clean a = true → starts_clean (a +:+ String x b) = true.
Proof.
  intros (H1 & _ & _ & H2 & H3)%ascii_in_no_wide_space.
  by apply clean_by_app_sep.
Qed.

Lemma ends_clean_sep (a b : string) (x : ascii) :
  (Ascii.nat_of_ascii x < 128)%nat →
  ends_clean b = true → ends_clean (a +:+ String x b) = true.
Proof.
  intros (_ & H1 & H2 & H3 & _)%ascii_in_no_wide_space. unfold ends_clean.
  rewrite rev_app, rev_cons, string_app_assoc.
  change (String x "" +:+ String.rev a) with (String x (String.rev a)).
  apply clean_by_app_sep; intros; [apply H1|apply H3|apply H2].
Qed.

Lemma strip_line (s : string) :
  starts_clean s = true → ends_clean s = true →
  Py.strip (s +:+ String (Ascii.ascii_of_nat 10) "") = s.
Proof.
  intros Hs He. unfold Py.strip, Py.rstrip, Py.lstrip.
  rewrite (lstrip_by_clean _ _ _ (s +:+ String (Ascii.ascii_of_nat 10) ""))
    by (apply starts_clean_sep; [by apply Nat.ltb_lt|done]).
  rewrite rev_app.
  change (String.rev (String (Ascii.ascii_of_nat 10) ""))
    with (String (Ascii.ascii_of_nat 10) "").
  rewrite string_app_cons. change ("" +:+ String.rev s) with (String.rev s).
  cbn [Py.lstrip_by]. change (Py.isspace (Ascii.ascii_of_nat 10)) with true.
  cbv iota. rewrite (lstrip_by_clean _ _ _ _ He). apply rev_involutive.
Qed.

Lemma split_tab_free (s : string) :
  tab_free s = true → Py.split Py.tab s = [s].
Proof.
  induction s as [|a s IH]; simpl; [done|].
  intros [Ha Hs]%andb_true_iff. apply negb_true_iff in Ha. rewrite Ha.
  by rewrite IH.
Qed.

Lemma split_concat_tab (fs : list string) :
  fs ≠ [] → Forall (λ f, tab_free f = true) fs →
  Py.split Py.tab (String.concat (String Py.tab "") fs) = fs.
Proof.
  induction fs as [|f fs IH]; [done|]. intros _ Hall.
  apply Forall_cons in Hall as [Hf Hall].
  destruct fs as [|g fs].
  - simpl. by apply split_tab_free.
  - change (String.concat (String Py.tab "") (f :: g :: fs))
      with (f +:+ String Py.tab (String.concat (String Py.tab "") (g :: fs))).
    rewrite split_app_sep, (split_tab_free f Hf), IH; done.
Qed.

Lemma ends_clean_concat (fs : list string) (d : string) :
  fs ≠ [] → ends_clean (List.last fs d) = true →
  ends_clean (String.concat (String Py.tab "") fs) = true.
Proof.
  induction fs as [|f fs IH]; [done|]. intros _.
  destruct fs as [|g fs]; [done|].
  change (List.last (f :: g :: fs) d) with (List.last (g :: fs) d).
  change (String.concat (String Py.tab "") (f :: g :: fs))
    with (f +:+ String Py.tab (String.concat (String Py.tab "") (g :: fs))).
  intros H. apply ends_clean_sep; [by apply Nat.ltb_lt|]. by apply IH.
Qed.

Lemma starts_clean_concat (fs : list string) (d : string) :
  starts_clean (List.hd d fs) = true → fs ≠ [] →
  starts_clean (String.concat (String Py.tab "") fs) = true.
Proof.
  destruct fs as [|f [|g fs]]; [done|done|]. simpl List.hd. intros H _.
  change (String.concat (String Py.tab "") (f :: g :: fs))
    with (f +:+ String Py.tab (String.concat (String Py.tab "") (g :: fs))).
  apply starts_clean_sep; [by apply Nat.ltb_lt|done].
Qed.

Lemma parse_tsv_line (fs : list string) :
  fs ≠ [] → Forall (λ f, tab_free f = true) fs →
  starts_clean (List.hd "" fs) = true → ends_clean (List.last fs "") = true →
  parse_line (tsv_line fs) = Relation_of_fields fs.
Proof.
  intros Hne Hall Hs He. unfold parse_line, tsv_line.
  rewrite strip_line.
  - by rewrite split_concat_tab.
  - by eapply starts_clean_concat.
  - by eapply ends_clean_concat.
Qed.

(** X21. A line written by [output_relations] is read back by the loader's
    parsing as the relation it was written for, with the two tags replaced by
    their taxonomy paths, provided that no field holds a tab, the path of [t1]
    is not empty and does not start with white space, and the last field is
    not empty and does not end with white space. *)
Theorem output_line_parses_back (u : Update) (rel : Relation) :
  Forall (λ f, tab_free f = true) (Relation_fields (with_paths u rel)) →
  starts_clean (Taxonomy.get_path (_out_taxonomy u) (t1 rel)) = true →
  ends_clean (tinv_alias_num rel) = true →
  parse_line (output_line u rel) = Some (with_paths u rel).
Proof.
  intros Hall Hs He. unfold output_line, Taxonomy.get_info.
  rewrite parse_tsv_line; done.
Qed.

Lemma string_ltb_asym (a b : string) : String.ltb a b = true → String.ltb b a = false.
Proof.
  unfold String.ltb. rewrite (String.compare_antisym a b).
  by destruct (String.compare b a).
Qed.

Lemma tuple_lt_asym (a b : string * string) :
  tuple_lt a b = true → tuple_lt b a = false.
Proof.
  unfold tuple_lt. rewrite (String.eqb_sym (fst b) (fst a)).
  destruct (String.eqb (fst a) (fst b)); apply string_ltb_asym.
Qed.

Section SortedByKeyFacts.
Context {A K : Type} (lt : K → K → bool) (key : A → K).
Hypothesis lt_asym : ∀ a b, lt a b = true → lt b a = false.

Lemma insert_by_key_perm (x : A) (l : list A) :
  insert_by_key lt key x l ≡ₚ x :: l.
Proof.
  induction l as [|y l IH]; simpl; [done|].
  destruct (lt (key x) (key y)); [done|]. rewrite IH. apply perm_swap.
Qed.

Lemma sorted_by_key_perm (l : list A) : sorted_by_key lt key l ≡ₚ l.
Proof.
  unfold sorted_by_key.
  assert (∀ acc, foldl (λ acc x, insert_by_key lt key x acc) acc l ≡ₚ acc ++ l) as H.
  { induction l as [|x l IH]; intros acc; simpl.
    - by rewrite app_nil_r.
    - rewrite IH, insert_by_key_perm. simpl. apply Permutation_middle. }
  apply (H []).
Qed.

Lemma insert_by_key_sorted (x : A) (l : list A) :
  Sorted (not_above lt key) l → Sorted (not_above lt key) (insert_by_key lt key x l).
Proof.
  induction l as [|y l IH]; simpl; intros Hl.
  - by repeat constructor.
  - apply Sorted_inv in Hl as [Hl Hy].
    destruct (lt (key x) (key y)) eqn:E.
    + constructor; [by constructor|]. constructor. unfold not_above.
      by apply lt_asym.
    + constructor; [by apply IH|].
      destruct l as [|z l]; simpl.
      * by constructor.
      * destruct (lt (key x) (key z)); constructor; [done|].
        by apply HdRel_inv in Hy.
Qed.

Lemma sorted_by_key_sorted (l : list A) : Sorted (not_above lt key) (sorted_by_key lt key l).
Proof.
  unfold sorted_by_key.
  assert (∀ acc, Sorted (not_above lt key) acc →
            Sorted (not_above lt key) (foldl (λ acc x, insert_by_key lt key x acc) acc l)) as H.
  { induction l as [|x l IH]; intros acc Hacc; simpl; [done|].
    by apply IH, insert_by_key_sorted. }
  apply H. constructor.
Qed.

End SortedByKeyFacts.

(** X20. [output_relations] writes the header, which the loader reads as a
    comment, and then one line for each relation of the working set, in an
    order in which no line's pair of categories is above that of the next. *)
Theorem output_relations_contents (rt : Runtime) (u : Update) :
  ∃ rels,
    output_relations rt u = relations_header :: List.map (output_line u) rels
    ∧ Py.startswith Py.hash relations_header = true
    ∧ rels ≡ₚ elements (rel_set u)
    ∧ length (output_relations rt u) = S (num_rules u)
    ∧ Sorted (not_above tuple_lt (category_pair u)) rels.
Proof.
  eexists. split; [reflexivity|]. split; [reflexivity|].
  assert (Hp : sorted_by_key tuple_lt (category_pair u) (set_iter rt (rel_set u))
               ≡ₚ elements (rel_set u)).
  { rewrite sorted_by_key_perm. apply set_iter_perm. }
  split; [exact Hp|]. split.
  - unfold output_relations, num_rules. simpl. by rewrite length_map, Hp.
  - apply (sorted_by_key_sorted tuple_lt (category_pair u) tuple_lt_asym).
Qed.

(** ** Worked examples for the further properties *)

(** What [init] returns is what [read_relations] returns on the object built
    before the file is read. *)
Lemma read_relations_of_init rt lines tax tr ex n t u :
  init rt lines tax tr ex n t = Ok u →
  ∃ rs u',
    read_relations rt lines
      {| _out_taxonomy := tax; _out_translation := tr; _out_expansion := ex;
         _n := n; _t := t; blist := Taxonomy.platform_tags tax;
         src_map := ∅; rel_set := ∅; logged := [] |} = Ok (rs, u')
    ∧ u = set_rel_set rs u'.
Proof.
  unfold init. intros H.
  destruct (read_relations _ _ _) as [[rs u']|e]; [|discriminate].
  exists rs, u'. split; [done|]. by injection H as <-.
Qed.

Lemma is_known_rel_unordered_pair_witness :
  is_known_rel Ex.object_os ExMore.rel_os_swapped
  = is_known_rel Ex.object_os Ex.rel_os.
Proof.
  apply (is_known_rel_unordered_pair Ex.object_os Ex.rel_os ExMore.rel_os_swapped).
  right. split; reflexivity.
Defined.

Lemma read_relations_set_of_lines_witness :
  ∃ r1 u1 r2 u2,
    read_relations (Concrete.runtime None) Ex.lines_upatre
      (Ex.object Ex.tax_upatre ∅ ∅ ∅) = Ok (r1, u1)
    ∧ read_relations (Concrete.runtime None) (Ex.lines_upatre ++ Ex.lines_upatre)
        (Ex.object Ex.tax_upatre ∅ ∅ ∅) = Ok (r2, u2)
    ∧ r1 = r2.
Proof.
  destruct (read_relations_of_init (Concrete.runtime None) Ex.lines_upatre
              Ex.tax_upatre ∅ ∅ 20 (94 # 100) Ex.object_upatre)
    as (r1 & u1 & H1 & _); [vm_compute; reflexivity|].
  destruct (read_relations_of_init (Concrete.runtime None)
              (Ex.lines_upatre ++ Ex.lines_upatre)
              Ex.tax_upatre ∅ ∅ 20 (94 # 100) Ex.object_upatre)
    as (r2 & u2 & H2 & _); [vm_compute; reflexivity|].
  exists r1, u1, r2, u2. split; [exact H1|]. split; [exact H2|].
  eapply (read_relations_set_of_lines (Concrete.runtime None) Ex.lines_upatre
            (Ex.lines_upatre ++ Ex.lines_upatre) (Ex.object Ex.tax_upatre ∅ ∅ ∅)).
  - intros l. rewrite elem_of_app. tauto.
  - exact H1.
  - exact H2.
Defined.

Lemma read_relations_frame_witness :
  ∃ rs u',
    read_relations (Concrete.runtime None) Ex.lines_upatre
      (Ex.object Ex.tax_upatre ∅ ∅ ∅) = Ok (rs, u')
    ∧ stores u' = stores (Ex.object Ex.tax_upatre ∅ ∅ ∅)
    ∧ _n u' = 20.
Proof.
  destruct (read_relations_of_init (Concrete.runtime None) Ex.lines_upatre
              Ex.tax_upatre ∅ ∅ 20 (94 # 100) Ex.object_upatre)
    as (rs & u' & H & _); [vm_compute; reflexivity|].
  exists rs, u'. split; [exact H|].
  destruct (read_relations_frame (Concrete.runtime None) Ex.lines_upatre
              (Ex.object Ex.tax_upatre ∅ ∅ ∅) rs u' H) as (H1 & H2 & _).
  split; [exact H1|exact H2].
Defined.

Lemma read_relations_antitone_witness :
  ∃ u u',
    init (Concrete.runtime None) Ex.lines_filtered Ex.tax_platform ∅ ∅ 20
      (94 # 100) = Ok u
    ∧ init (Concrete.runtime None) Ex.lines_filtered Ex.tax_platform ∅ ∅ 10
        (50 # 100) = Ok u'
    ∧ rel_set u ⊆ rel_set u'.
Proof.
  eexists _, _. split; [vm_compute; reflexivity|].
  split; [vm_compute; reflexivity|].
  eapply (read_relations_antitone (Concrete.runtime None) Ex.lines_filtered
            Ex.tax_platform ∅ ∅ 20 10 (94 # 100) (50 # 100)).
  - lia.
  - unfold Qle. simpl. lia.
  - vm_compute. reflexivity.
  - vm_compute. reflexivity.
Defined.

Lemma num_rules_bound_witness :
  ∃ u,
    init (Concrete.runtime None) Ex.lines_filtered Ex.tax_platform ∅ ∅ 20
      (94 # 100) = Ok u
    ∧ (num_rules u
       ≤ length (List.filter (λ l, negb (Py.startswith Py.hash l))
                   Ex.lines_filtered))%nat.
Proof.
  eexists. split; [vm_compute; reflexivity|].
  eapply (num_rules_bound (Concrete.runtime None) Ex.lines_filtered
            Ex.tax_platform ∅ ∅ 20 (94 # 100)).
  vm_compute. reflexivity.
Defined.

Lemma run_after_load_never_KeyError_witness :
  run (Concrete.runtime (Some Concrete.args94)) Ex.object_upatre
  ≠ Some (Raise KeyError).
Proof.
  apply (run_after_load_never_KeyError (Concrete.runtime (Some Concrete.args94))
           Ex.lines_upatre Ex.tax_upatre ∅ ∅ 20 (94 # 100) Ex.object_upatre).
  vm_compute. reflexivity.
Defined.

(** Of the destinations [x], recorded with ["30"], and [y], with ["20"], both
    above ["10"], the later one is chosen. *)
Lemma add_alias_target_last_above_witness :
  "y" = List.last (List.filter (count_above ExMore.counts_xy "10") ["x"; "y"]) "d".
Proof.
  apply (add_alias_target_last_above ExMore.counts_xy "10" ["x"; "y"] "d" "y").
  vm_compute. reflexivity.
Defined.

Lemma add_alias_makes_known_witness :
  ∃ u', add_alias "upatre" "UNK_A" "FAM" Ex.object_upatre = Ok u'
        ∧ is_known_rel u' Ex.rel_upatre = true.
Proof.
  eexists. split; [vm_compute; reflexivity|].
  eapply (add_alias_makes_known "upatre" "UNK_A" "FAM" Ex.object_upatre _
            Ex.rel_upatre).
  - vm_compute. reflexivity.
  - reflexivity.
  - reflexivity.
  - left. vm_compute. reflexivity.
Defined.

Lemma strong_relation_never_deferred_witness :
  ∃ z u',
    process_relation (Concrete.runtime (Some Concrete.args94)) Ex.rel_upatre
      Ex.object_upatre = Ok (z, u')
    ∧ (z = 1 ∨ z = -1).
Proof.
  eexists _, _. split; [vm_compute; reflexivity|].
  eapply (strong_relation_never_deferred (Concrete.runtime (Some Concrete.args94))
            Ex.rel_upatre Ex.object_upatre Concrete.args94 (96 # 100)).
  - reflexivity.
  - vm_compute. reflexivity.
  - unfold Qle. simpl. lia.
  - vm_compute. reflexivity.
Defined.

Lemma contradiction_only_for_distinct_categories_witness :
  ∃ u',
    process_relation (Concrete.runtime (Some Concrete.args94))
      Ex.rel_contradiction Ex.object_contradiction = Ok (-1, u')
    ∧ stores u' = stores Ex.object_contradiction.
Proof.
  eexists. split; [vm_compute; reflexivity|].
  edestruct (contradiction_only_for_distinct_categories
               (Concrete.runtime (Some Concrete.args94))
               Ex.rel_contradiction Ex.object_contradiction)
    as (_ & _ & _ & _ & H & _); [vm_compute; reflexivity|exact H].
Defined.

Lemma unknown_tag_filed_as_family_witness :
  ∃ u',
    process_relation (Concrete.runtime (Some Concrete.args94)) Ex.rel_newfam
      Ex.object_newfam = Ok (0, u')
    ∧ Taxonomy.get_info (_out_taxonomy u') "newfam" = ("FAM:newfam", "FAM")
    ∧ is_expansion_rel u' Ex.rel_newfam = true.
Proof.
  destruct (unknown_tag_filed_as_family (Concrete.runtime (Some Concrete.args94))
              Ex.rel_newfam Ex.object_newfam Concrete.args94 (50 # 100))
    as (u' & H1 & H2 & _ & H4 & _).
  - reflexivity.
  - vm_compute. reflexivity.
  - unfold Qle. simpl. lia.
  - vm_compute. reflexivity.
  - vm_compute. reflexivity.
  - reflexivity.
  - left. vm_compute. reflexivity.
  - exists u'. split; [exact H1|]. split; [exact H2|exact H4].
Defined.

Lemma is_expansion_rel_categories_witness :
  Taxonomy.get_category (_out_taxonomy Ex.object_contradiction)
    (t2 Ex.rel_contradiction) ≠ "UNK"
  ∧ t1 Ex.rel_contradiction ≠ t2 Ex.rel_contradiction.
Proof.
  destruct (is_expansion_rel_categories Ex.object_contradiction
              Ex.rel_contradiction) as (_ & H2 & _ & _ & H5).
  - vm_compute. reflexivity.
  - split; [exact H2|exact H5].
Defined.

Lemma run_settings_unchanged_witness :
  ∃ u',
    run (Concrete.runtime (Some Concrete.args94)) Ex.object_families
    = Some (Ok u')
    ∧ settings u' = settings Ex.object_families
    ∧ rel_set u' ⊆ rel_set Ex.object_families.
Proof.
  eexists. split; [vm_compute; reflexivity|].
  apply (run_settings_unchanged (Concrete.runtime (Some Concrete.args94))
           Ex.object_families).
  vm_compute. reflexivity.
Defined.

Lemma run_on_known_relations_witness :
  ∃ u', run (Concrete.runtime None) Ex.object_os = Some (Ok u')
        ∧ stores u' = stores Ex.object_os
        ∧ settings u' = settings Ex.object_os
        ∧ rel_set u' = ∅.
Proof.
  apply (run_on_known_relations (Concrete.runtime None) Ex.object_os).
  intros rel Hrel. change (rel ∈ ({[Ex.rel_os]} : gset Relation)) in Hrel.
  apply elem_of_singleton in Hrel as ->. vm_compute. reflexivity.
Defined.

Lemma run_returns_when_counts_recorded_witness :
  ∃ u', run (Concrete.runtime (Some Concrete.args94)) Ex.object_families
        = Some (Ok u').
Proof.
  apply (run_returns_when_counts_recorded
           (Concrete.runtime (Some Concrete.args94)) Ex.object_families
           Concrete.args94).
  - reflexivity.
  - intros rel Hrel.
    change (rel ∈ ({[Ex.rel_citadel; Ex.rel_banker]} : gset Relation)) in Hrel.
    apply elem_of_union in Hrel as [Hrel|Hrel];
      apply elem_of_singleton in Hrel as ->; split; vm_compute; eauto.
  - intros s d Hd. simpl in Hd. unfold Translation.get_dst, Rules.get_dst in Hd.
    rewrite lookup_empty in Hd. by apply elem_of_nil in Hd.
Defined.

Lemma output_line_parses_back_witness :
  parse_line (output_line Ex.object_upatre Ex.rel_upatre)
  = Some (with_paths Ex.object_upatre Ex.rel_upatre).
Proof.
  apply (output_line_parses_back Ex.object_upatre Ex.rel_upatre).
  - repeat (constructor; [reflexivity|]). constructor.
  - reflexivity.
  - reflexivity.
Defined.

(** The two files [main] would write for the relations of [Ex.object_families]:
    the class before the family. *)
Example output_relations_sorted_example :
  output_relations (Concrete.runtime None) Ex.object_families
  = [relations_header;
     tsv_line ["CLASS:banker"; "FAM:citadel"; "100"; "100"; "50"; "0.96"; "0.50"];
     tsv_line ["FAM:citadel"; "FAM:zbot"; "100"; "100"; "50"; "0.96"; "0.50"]].
Proof. vm_compute. reflexivity. Qed.
